(** * Retrieval pipeline: chunker, vector index and clause matcher

    A shallow embedding of [app/services/document_loader.py] (chunk_text),
    [app/services/vector_store.py] (VectorStore) and
    [app/services/clause_matcher.py] (ClauseMatcher), with the properties
    of the design document stated and settled against it.

    Python values are modelled as follows.
    - [int] is [Z]; a [str] is the list of its Unicode code points ([N]).
    - A call returns or raises: [result]. The one loop that is not
      bounded by its data takes fuel, and [None] says the fuel ran out.
    - A [dict] is a [gmap]; a [list] is a [list]; [None] is [None].
    - A numpy float is a rational; NaN is outside the model.
    - Logging is left out, and memory is unbounded. *)

From Stdlib Require Import ZArith NArith QArith List String Ascii Lia Bool.
From Stdlib Require Import Sorting.Sorted Sorting.Permutation.
From stdpp Require Import base option list gmap strings.
From Stdlib Require Import DecimalString.

Local Open Scope Z_scope.

(* ===================================================================== *)
(** * Definitions                                                         *)
(* ===================================================================== *)

(** ** Python primitives used by the three services *)
Module Py.

(** Exceptions that the modelled code can meet. *)
Inductive exn : Type :=
| ValueError
| IndexError
| RuntimeError (msg : string).

(** What a call does: it returns a value or raises. *)
Inductive result (A : Type) : Type :=
| Returned (a : A)
| Raised (e : exn).
Arguments Returned {A} a.
Arguments Raised {A} e.

(** A Python [str]: the sequence of its code points. *)
Definition str : Type := list N.

(** An ASCII literal as a Python [str]. *)
Definition lit (s : string) : str :=
  List.map N_of_ascii (list_ascii_of_string s).

(** [len(x)] *)
Definition len {A : Type} (l : list A) : Z := Z.of_nat (length l).

(** Slice-bound adjustment ([PySlice_AdjustIndices], step 1): a
    negative bound counts from the end, and both are clamped to
    [0 .. n]. *)
Definition adjust (n i : Z) : Z :=
  if i <? 0 then Z.max (i + n) 0 else Z.min i n.

(** [l[start:stop]] *)
Definition slice {A : Type} (l : list A) (start stop : Z) : list A :=
  let a := adjust (len l) start in
  let b := adjust (len l) stop in
  take (Z.to_nat (b - a)) (drop (Z.to_nat a) l).

(** [l[:stop]] *)
Definition slice_to {A : Type} (l : list A) (stop : Z) : list A :=
  take (Z.to_nat (adjust (len l) stop)) l.

(** Position of the last [c] in a window, relative to the window. *)
Fixpoint rindex (c : N) (w : str) : option nat :=
  match w with
  | [] => None
  | x :: w' =>
      match rindex c w' with
      | Some j => Some (S j)
      | None => if N.eqb x c then Some O else None
      end
  end.

(** [s.rfind(c, start, stop)] for a one-character needle: the highest
    index in the adjusted window holding [c], or [-1]. *)
Definition rfind (s : str) (c : N) (start stop : Z) : Z :=
  let a := adjust (len s) start in
  let b := adjust (len s) stop in
  match rindex c (take (Z.to_nat (b - a)) (drop (Z.to_nat a) s)) with
  | Some j => a + Z.of_nat j
  | None => -1
  end.

(** [str.isspace] on one code point ([_PyUnicode_IsWhitespace]). *)
Definition is_space (c : N) : bool :=
  ((9 <=? c) && (c <=? 13) || (28 <=? c) && (c <=? 32)
   || (c =? 133) || (c =? 160) || (c =? 5760)
   || (8192 <=? c) && (c <=? 8202)
   || (c =? 8232) || (c =? 8233) || (c =? 8239) || (c =? 8287)
   || (c =? 12288))%N.

Fixpoint lstrip (s : str) : str :=
  match s with
  | [] => []
  | c :: s' => if is_space c then lstrip s' else s
  end.

Definition rstrip (s : str) : str := rev (lstrip (rev s)).

(** [s.strip()] *)
Definition strip (s : str) : str := rstrip (lstrip s).

(** A text of white space only, and a text of ASCII only. *)
Definition blank (s : str) : Prop := Forall (fun c => is_space c = true) s.

Definition ascii (w : str) : Prop := Forall (fun c => (c < 128)%N) w.

(** Truth value of a sequence: non-empty. *)
Definition truthy {A : Type} (l : list A) : bool :=
  match l with [] => false | _ :: _ => true end.

Fixpoint starts_with (p s : str) : bool :=
  match p, s with
  | [], _ => true
  | _ :: _, [] => false
  | a :: p', b :: s' => N.eqb a b && starts_with p' s'
  end.

(** [sub in s] *)
Fixpoint contains (sub s : str) : bool :=
  starts_with sub s ||
  match s with
  | [] => false
  | _ :: s' => contains sub s'
  end.

(** [sep.join(parts)] *)
Fixpoint join (sep : str) (parts : list str) : str :=
  match parts with
  | [] => []
  | [p] => p
  | p :: rest => p ++ sep ++ join sep rest
  end.

(** Lower case of an ASCII letter; other code points are kept. *)
Definition ascii_lower (c : N) : N :=
  if ((65 <=? c) && (c <=? 90))%N then (c + 32)%N else c.

(** The parts of the Unicode character database that the services
    consult beyond ASCII. [lower_other before c after] is what
    [str.lower] writes for the non-ASCII code point [c] standing
    between [before] and [after] (the context decides the final
    sigma); [decimal_other c] says whether the non-ASCII [c] is a
    decimal digit (category Nd), which is what [\d] matches. *)
Class UnicodeData : Type := {
  lower_other : str -> N -> str -> str;
  decimal_other : N -> bool
}.

(** The database cut down to ASCII: other code points have no case
    and are not digits. *)
Definition ascii_only : UnicodeData :=
  {| lower_other := fun _ c _ => [c]; decimal_other := fun _ => false |}.

Section WithUnicode.
Context {U : UnicodeData}.

Definition lower_char (before : str) (c : N) (after : str) : str :=
  if (c <? 128)%N then [ascii_lower c] else lower_other before c after.

Fixpoint lower_from (before s : str) : str :=
  match s with
  | [] => []
  | c :: s' => lower_char before c s' ++ lower_from (before ++ [c]) s'
  end.

(** [s.lower()] *)
Definition lower (s : str) : str := lower_from [] s.

(** [\d] *)
Definition is_digit (c : N) : bool :=
  if (c <? 128)%N then ((48 <=? c) && (c <=? 57))%N else decimal_other c.
End WithUnicode.

End Py.

(** ** [app/services/document_loader.py]: the chunker *)
Module DocumentLoader.
Import Py.

Definition period : N := 46.

(** One pass through the body of the [while] loop of [chunk_text], up
    to the [break] test: the right edge [end] of the window that
    starts at [start], and the trimmed chunk. *)
Definition window (text : str) (chunk_size start : Z) : Z * str :=
  let end0 := start + chunk_size in
  let end_ :=
    if end0 <? len text then
      let last_period := rfind text period start end0 in
      if last_period >? start then last_period + 1 else end0
    else end0 in
  (end_, strip (slice text start end_)).

(** [chunks.append(chunk)] under [if chunk:] *)
Definition keep (chunks : list str) (chunk : str) : list str :=
  if truthy chunk then chunks ++ [chunk] else chunks.

(** The [while start < len(text)] loop, one iteration per unit of
    fuel; [None] when the fuel is used up and the loop is still
    running. *)
Fixpoint chunk_loop (fuel : nat) (text : str) (chunk_size overlap : Z)
         (start : Z) (chunks : list str) : option (result (list str)) :=
  match fuel with
  | O => None
  | S fuel' =>
      if start <? len text then
        let '(end_, chunk) := window text chunk_size start in
        let chunks' := keep chunks chunk in
        if end_ >=? len text then Some (Returned chunks')
        else chunk_loop fuel' text chunk_size overlap (end_ - overlap) chunks'
      else Some (Returned chunks)
  end.

(** [DocumentLoader.chunk_text(text, chunk_size, overlap)] *)
Definition chunk_text (fuel : nat) (text : str) (chunk_size overlap : Z)
  : option (result (list str)) :=
  if len text <=? chunk_size then Some (Returned [text])
  else chunk_loop fuel text chunk_size overlap 0 [].

(** The values of [settings.MAX_CHUNK_SIZE] and
    [settings.CHUNK_OVERLAP] in [app/core/config.py]. *)
Definition MAX_CHUNK_SIZE : Z := 1000.
Definition CHUNK_OVERLAP : Z := 200.

(** A page that opens with a short heading and goes on without a full
    stop for longer than a chunk, as a table does: six characters of
    heading and 1200 more. *)
Definition heading_then_table : str := lit "Sec 1." ++ repeat 120%N 1200.

End DocumentLoader.

(** ** [app/services/vector_store.py]: the vector index *)
Module VectorStore.
Import Py.

(** Sequencing of calls that may raise. *)
Definition bind {A B : Type} (c : result A) (k : A -> result B)
  : result B :=
  match c with
  | Returned a => k a
  | Raised e => Raised e
  end.

Notation "x <- c ;; k" := (bind c (fun x => k))
  (at level 62, c at next level, right associativity).

(** A value stored in a metadata [dict]. *)
Inductive value : Type :=
| VInt (z : Z)
| VStr (s : str).

(** A metadata [dict], such as [{'page': 3, 'source': 'document'}]. *)
Abbreviation meta := (gmap string value).

(** A two-dimensional numpy array of floats: its rows and the length
    every row has. *)
Record ndarray : Type := {
  ncols : nat;
  rows : list (list Q)
}.

(** [np.vstack([a, b])]: the rows of [a] followed by those of [b];
    numpy refuses arrays whose rows differ in length. *)
Definition vstack (a b : ndarray) : result ndarray :=
  if Nat.eqb (ncols a) (ncols b)
  then Returned {| ncols := ncols a; rows := rows a ++ rows b |}
  else Raised ValueError.

(** The library calls of the module: [self.model.encode],
    sklearn's [cosine_similarity] and [np.argsort]. *)
Class Services : Type := {
  encode : list str -> result ndarray;
  cosine_similarity : ndarray -> ndarray -> result (list (list Q));
  argsort : list Q -> list nat
}.

(** What numpy promises of [argsort]: the indices of the array, each
    once, in an order that lists the values ascending. The order of
    equal values is left open. *)
Definition sorts (f : list Q -> list nat) : Prop :=
  forall a : list Q,
    Permutation (f a) (seq 0 (length a)) /\
    StronglySorted (fun i j => (nth i a 0 <= nth j a 0)%Q) (f a).

(** What the embedding model promises: one row per text. *)
Definition one_row_per_text (enc : list str -> result ndarray) : Prop :=
  forall (ts : list str) (E : ndarray),
    enc ts = Returned E -> length (rows E) = length ts.

(** The attributes of a [VectorStore] object. *)
Record t : Type := {
  embeddings : option ndarray;
  texts : list str;
  metadata : list meta
}.

(** The store that [__init__] leaves. *)
Definition init : t :=
  {| embeddings := None; texts := []; metadata := [] |}.

(** [len(self.embeddings)], with [None] counted as no rows. *)
Definition n_embeddings (self : t) : nat :=
  match embeddings self with
  | None => O
  | Some E => length (rows E)
  end.

(** Methods that mutate [self]: the store is threaded through, and
    a [raise] keeps the store as it is at that point. *)
Definition M (A : Type) : Type := t -> t * result A.

Definition ret {A : Type} (a : A) : M A := fun self => (self, Returned a).

Definition call {A : Type} (c : result A) : M A := fun self => (self, c).

Definition seq_ {A B : Type} (m : M A) (k : A -> M B) : M B :=
  fun self =>
    match m self with
    | (self', Returned a) => k a self'
    | (self', Raised e) => (self', Raised e)
    end.

Definition get : M t := fun self => (self, Returned self).

Definition set_embeddings (E : ndarray) : M unit :=
  fun self =>
    ({| embeddings := Some E; texts := texts self;
        metadata := metadata self |}, Returned tt).

Definition extend_texts (ts : list str) : M unit :=
  fun self =>
    ({| embeddings := embeddings self; texts := texts self ++ ts;
        metadata := metadata self |}, Returned tt).

Definition extend_metadata (ms : list meta) : M unit :=
  fun self =>
    ({| embeddings := embeddings self; texts := texts self;
        metadata := metadata self ++ ms |}, Returned tt).

(** [try: body except Exception as e: handler(e)] *)
Definition try_except {A : Type} (body : M A) (handler : exn -> M A)
  : M A :=
  fun self =>
    match body self with
    | (self', Raised e) => handler e self'
    | r => r
    end.

Definition reraise {A : Type} (e : exn) : M A :=
  fun self => (self, Raised e).

Notation "x <~ m ;; k" := (seq_ m (fun x => k))
  (at level 62, m at next level, right associativity).
Notation "m >>> k" := (seq_ m (fun _ => k))
  (at level 62, right associativity).

(** The [metadata] argument when it counts as given: a non-empty
    list. [None] and [[]] are both false. *)
Definition given (metadata : option (list meta)) : option (list meta) :=
  match metadata with
  | Some (m :: ms) => Some (m :: ms)
  | _ => None
  end.

Section Methods.
Context {S : Services}.

(** [VectorStore.add_documents(self, texts, metadata=None)] *)
Definition add_documents (texts : list str)
           (metadata : option (list meta)) : M unit :=
  if negb (truthy texts) then ret tt
  else
    try_except
      (new_embeddings <~ call (encode texts) ;;
       self <~ get ;;
       (match embeddings self with
        | None => set_embeddings new_embeddings
        | Some old =>
            stacked <~ call (vstack old new_embeddings) ;;
            set_embeddings stacked
        end) >>>
       extend_texts texts >>>
       match given metadata with
       | Some ms => extend_metadata ms
       | None => extend_metadata (replicate (length texts) ∅)
       end)
      (fun e => reraise e).
(* [[{}] * len(texts)] repeats one dict object; neither this module nor
   the clause matcher updates a stored dict, so the copies of the model
   cannot be told from it. *)

(** One ranked result: [(text, score, metadata)]. *)
Definition hit : Type := str * Q * meta.

Definition score (h : hit) : Q := snd (fst h).

(** [x[i]], raising [IndexError] out of range. *)
Definition item {A : Type} (l : list A) (i : nat) : result A :=
  match l !! i with
  | Some x => Returned x
  | None => Raised IndexError
  end.

(** The [for idx in top_indices] loop of [search]. *)
Fixpoint collect (self : t) (similarities : list Q)
         (top_indices : list nat) (results : list hit)
  : result (list hit) :=
  match top_indices with
  | [] => Returned results
  | idx :: rest =>
      if Nat.ltb idx (length (texts self)) then
        score <- item similarities idx ;;
        text <- item (texts self) idx ;;
        collect self similarities rest
          (results ++
             [(text, score,
               if Nat.ltb idx (length (metadata self))
               then default ∅ (metadata self !! idx) else ∅)])
      else collect self similarities rest results
  end.

(** The body of the [try] in [search]. *)
Definition search_body (self : t) (E : ndarray) (query : str) (k : Z)
  : result (list hit) :=
  query_embedding <- encode [query] ;;
  matrix <- cosine_similarity query_embedding E ;;
  similarities <- item matrix 0 ;;
  let top_indices := slice_to (rev (argsort similarities)) k in
  collect self similarities top_indices [].

(** [VectorStore.search(self, query, k)] *)
Definition search (self : t) (query : str) (k : Z)
  : result (list hit) :=
  match embeddings self with
  | None => Returned []
  | Some E =>
      if len (texts self) =? 0 then Returned []
      else
        match search_body self E query k with
        | Raised _ => Returned []
        | r => r
        end
  end.

(** The result tuple that [search] builds for index [idx]. *)
Definition entry (self : t) (similarities : list Q) (idx : nat) : hit :=
  (nth idx (texts self) [], nth idx similarities 0%Q,
   default ∅ (metadata self !! idx)).

(** What [search] returns once the similarities are there: the first
    [k] indices of the ranking that have a text, as result tuples. *)
Definition ranked (self : t) (similarities : list Q) (k : Z) : list hit :=
  List.map (entry self similarities)
    (List.filter (fun idx => Nat.ltb idx (length (texts self)))
       (slice_to (rev (argsort similarities)) k)).

(** A sequence of [add_documents] calls on one store; the caller
    may go on after a call that raised. *)
Definition add_all (calls : list (list str * option (list meta)))
           (self : t) : t :=
  fold_left (fun s c => fst (add_documents (fst c) (snd c) s)) calls self.
End Methods.

(** The index invariant of the design: texts, embeddings and
    metadata have one entry each per chunk. *)
Definition aligned (self : t) : Prop :=
  length (texts self) = n_embeddings self /\
  length (metadata self) = length (texts self).

(** What one [add_documents] call appends to [self.metadata]. *)
Definition appended (texts : list str) (metadata : option (list meta))
  : list meta :=
  match given metadata with
  | Some ms => ms
  | None => replicate (length texts) ∅
  end.

(** The [metadata] argument has an entry for each text, or is left
    out ([None] or [[]]). *)
Definition fits (texts : list str) (metadata : option (list meta)) : Prop :=
  given metadata = None \/
  exists ms : list meta, metadata = Some ms /\ length ms = length texts.

(** All stored chunks with their scores, in the order of insertion. *)
Definition entries (self : t) (similarities : list Q)
  : list (str * Q * meta) :=
  List.map (entry self similarities) (seq 0 (length (texts self))).

(** An argsort by insertion, to have one that meets [sorts]. *)
Fixpoint insert_index (a : list Q) (i : nat) (sorted : list nat)
  : list nat :=
  match sorted with
  | [] => [i]
  | j :: rest =>
      if Qle_bool (nth i a 0%Q) (nth j a 0%Q) then i :: sorted
      else j :: insert_index a i rest
  end.

Definition insertion_argsort (a : list Q) : list nat :=
  fold_right (insert_index a) [] (seq 0 (length a)).

(** A toy embedding: one two-dimensional row per text, its length and
    a constant; similarities by dot product. It stands in for the
    model where a concrete store is needed. *)
Definition toy_row (s : str) : list Q := [inject_Z (len s); 1%Q].

Definition dot (u v : list Q) : Q :=
  fold_right Qplus 0%Q (zip_with Qmult u v).

Definition toy : Services :=
  {| encode := fun ts => Returned {| ncols := 2; rows := List.map toy_row ts |};
     cosine_similarity := fun X Y =>
       Returned (List.map (fun x => List.map (dot x) (rows Y)) (rows X));
     argsort := insertion_argsort |}.

(** A store filled through the toy model, without metadata. *)
Definition three_chunks : t :=
  fst (@add_documents toy
         [lit "grace period is 30 days"; lit "no coverage for dental";
          lit "premium due"]
         None init).

(** The toy services with an embedding model that is down. *)
Definition down : Services :=
  {| encode := fun _ => Raised (RuntimeError "model unavailable");
     cosine_similarity := @cosine_similarity toy;
     argsort := insertion_argsort |}.

(** The toy services with a similarity routine that refuses its
    arguments. *)
Definition mismatched : Services :=
  {| encode := @encode toy;
     cosine_similarity := fun _ _ => Raised ValueError;
     argsort := insertion_argsort |}.

End VectorStore.

(** ** [app/services/clause_matcher.py]: the clause matcher *)
Module ClauseMatcher.
Import Py.

(** The tags that [_classify_clause] returns (in Python, the strings
    of the same spelling). *)
Inductive kind : Type :=
| coverage
| waiting_period
| premium
| exclusion
| amount
| general.

(** *** Regular expressions, as [re] runs them

    The fragment that the three patterns use: literals, classes,
    sequence, ordered choice, and the greedy [?], [*]. Matching
    backtracks, so it is written against a continuation [k] that may
    refuse the rest of the text. *)
Inductive regex : Type :=
| Eps
| Chr (c : N)
| Cls (p : N -> bool)
| Cat (a b : regex)
| Alt (a b : regex)
| Opt (a : regex)
| Star (a : regex).

(** [a+] and a literal word. *)
Definition Plus (a : regex) : regex := Cat a (Star a).

Definition Word (w : string) : regex :=
  fold_right (fun c r => Cat (Chr c) r) Eps (lit w).

(** The greedy loop of [a*]: as many rounds of [body] as the text
    allows, each of which takes at least one character, giving rounds
    back one by one when what follows does not match. *)
Fixpoint star_loop (body : str -> (str -> option str) -> option str)
         (k : str -> option str) (n : nat) (s : str) {struct n}
  : option str :=
  match n with
  | O => k s
  | S n' =>
      match body s (fun s' => if Nat.ltb (length s') (length s)
                              then star_loop body k n' s' else None) with
      | Some rest => Some rest
      | None => k s
      end
  end.

Fixpoint re_match (r : regex) (s : str) (k : str -> option str)
  {struct r} : option str :=
  match r with
  | Eps => k s
  | Chr c =>
      match s with
      | x :: s' => if N.eqb x c then k s' else None
      | [] => None
      end
  | Cls p =>
      match s with
      | x :: s' => if p x then k s' else None
      | [] => None
      end
  | Cat a b => re_match a s (fun s' => re_match b s' k)
  | Alt a b =>
      match re_match a s k with
      | Some rest => Some rest
      | None => re_match b s k
      end
  | Opt a =>
      match re_match a s k with
      | Some rest => Some rest
      | None => k s
      end
  | Star a => star_loop (re_match a) k (length s) s
  end.

(** The least number of characters that a match of the pattern takes. *)
Fixpoint min_len (r : regex) : nat :=
  match r with
  | Eps => 0
  | Chr _ => 1
  | Cls _ => 1
  | Cat a b => min_len a + min_len b
  | Alt a b => Nat.min (min_len a) (min_len b)
  | Opt _ => 0
  | Star _ => 0
  end.

(** Two patterns of one shape whose classes agree on the characters
    that satisfy [chars]. *)
Inductive alike (chars : N -> Prop) : regex -> regex -> Prop :=
| alike_eps : alike chars Eps Eps
| alike_chr (c : N) : alike chars (Chr c) (Chr c)
| alike_cls (p q : N -> bool) :
    (forall c : N, chars c -> p c = q c) -> alike chars (Cls p) (Cls q)
| alike_cat (a a' b b' : regex) :
    alike chars a a' -> alike chars b b' -> alike chars (Cat a b) (Cat a' b')
| alike_alt (a a' b b' : regex) :
    alike chars a a' -> alike chars b b' -> alike chars (Alt a b) (Alt a' b')
| alike_opt (a a' : regex) :
    alike chars a a' -> alike chars (Opt a) (Opt a')
| alike_star (a a' : regex) :
    alike chars a a' -> alike chars (Star a) (Star a').

(** One attempt of [re] at the head of [s]: what is left of [s] after
    the match, if there is one. *)
Definition match_here (r : regex) (s : str) : option str :=
  re_match r s Some.

(** The scan of [re.findall] for a pattern without groups: the matches
    from left to right, the search resuming where a match ended. An
    empty match is listed and the scan moves on by one character (none
    of the patterns below can match the empty string). *)
Fixpoint scan (fuel : nat) (r : regex) (s : str) : list str :=
  match fuel with
  | O => []
  | S fuel' =>
      match match_here r s with
      | Some rest =>
          match take (length s - length rest) s with
          | [] => [] :: match s with
                        | [] => []
                        | _ :: s' => scan fuel' r s'
                        end
          | m => m :: scan fuel' r rest
          end
      | None =>
          match s with
          | [] => []
          | _ :: s' => scan fuel' r s'
          end
      end
  end.

(** [re.findall(pattern, text)] *)
Definition findall (r : regex) (text : str) : list str :=
  scan (S (length text)) r text.

Section WithUnicode.
Context {U : UnicodeData}.

(** [any(word in text_lower for word in words)] *)
Definition any_in (words : list str) (text_lower : str) : bool :=
  existsb (fun word => contains word text_lower) words.

(** [ClauseMatcher._classify_clause(self, text)] *)
Definition _classify_clause (text : str) : kind :=
  let text_lower := lower text in
  if any_in [lit "cover"; lit "coverage"; lit "benefit"] text_lower
  then coverage
  else if any_in [lit "waiting"; lit "period"; lit "wait"] text_lower
  then waiting_period
  else if any_in [lit "premium"; lit "payment"; lit "due"] text_lower
  then premium
  else if any_in [lit "exclude"; lit "exclusion"; lit "not covered"]
            text_lower
  then exclusion
  else if any_in [lit "amount"; lit "sum"; lit "limit"] text_lower
  then amount
  else general.

(** [\d] and [\s] as character classes. *)
Definition digit : regex := Cls is_digit.
Definition space : regex := Cls is_space.

(** The three code points that stand in the source of the money
    pattern after [INR|]: U+00E2, U+201A, U+00B9. *)
Definition currency_sign_in_source : regex :=
  Cat (Chr 226) (Cat (Chr 8218) (Chr 185)).

(** The rupee sign, U+20B9. *)
Definition rupee : N := 8377.

(** [(?:Rs\.?|INR|...)\s*[\d,]+(?:\.\d{2})?] *)
Definition money_pattern : regex :=
  Cat (Alt (Cat (Word "Rs") (Opt (Chr 46)))
           (Alt (Word "INR") currency_sign_in_source))
      (Cat (Star space)
           (Cat (Plus (Cls (fun c => is_digit c || N.eqb c 44)))
                (Opt (Cat (Chr 46) (Cat digit digit))))).

(** [\d+\s*(?:days?|months?|years?)] *)
Definition time_pattern : regex :=
  Cat (Plus digit)
      (Cat (Star space)
           (Alt (Cat (Word "day") (Opt (Chr 115)))
                (Alt (Cat (Word "month") (Opt (Chr 115)))
                     (Cat (Word "year") (Opt (Chr 115)))))).

(** [\d+(?:\.\d+)?%] *)
Definition percent_pattern : regex :=
  Cat (Plus digit) (Cat (Opt (Cat (Chr 46) (Plus digit))) (Chr 37)).

(** [ClauseMatcher._extract_key_phrases(self, text)] *)
Definition _extract_key_phrases (text : str) : list str :=
  let phrases := [] in
  let phrases := phrases ++ findall money_pattern text in
  let phrases := phrases ++ findall time_pattern text in
  let phrases := phrases ++ findall percent_pattern text in
  phrases.

(** A clause record, the [dict] built for each hit. *)
Record clause : Type := {
  text : str;
  relevance_score : Q;
  metadata : gmap string VectorStore.value;
  clause_type : kind;
  key_phrases : list str
}.

(** The search string built from the parsed query. A key that is
    absent, or present with an empty list, adds nothing. *)
Definition search_query (parsed_query : gmap string (list str)) : str :=
  let search_terms := [] in
  let search_terms :=
    match parsed_query !! "keywords" with
    | Some (w :: ws) => search_terms ++ slice_to (w :: ws) 10
    | _ => search_terms
    end in
  let search_terms :=
    match parsed_query !! "entities" with
    | Some (w :: ws) => search_terms ++ (w :: ws)
    | _ => search_terms
    end in
  if truthy search_terms then join (lit " ") search_terms
  else lit "general policy information".

(** [ClauseMatcher.find_relevant_clauses(self, parsed_query, k)], over
    the [search] method of whatever object was passed as
    [vector_store]. *)
Definition find_relevant_clauses
           (vector_store_search : str -> Z -> result (list VectorStore.hit))
           (parsed_query : gmap string (list str)) (k : Z)
  : result (list clause) :=
  match vector_store_search (search_query parsed_query) k with
  | Returned results =>
      Returned
        (List.map
           (fun '(text, score, metadata) =>
              {| text := text;
                 relevance_score := score;
                 metadata := metadata;
                 clause_type := _classify_clause text;
                 key_phrases := _extract_key_phrases text |})
           results)
  | Raised _ => Returned []
  end.

(** *** The classification rule as the design document tables it *)

Definition rules : list (kind * list str) :=
  [ (coverage, [lit "cover"; lit "coverage"; lit "benefit"]);
    (waiting_period, [lit "waiting"; lit "period"; lit "wait"]);
    (premium, [lit "premium"; lit "payment"; lit "due"]);
    (exclusion, [lit "exclude"; lit "exclusion"; lit "not covered"]);
    (amount, [lit "amount"; lit "sum"; lit "limit"]) ].

(** The first rule with a keyword in the text wins; [general] if none
    has. *)
Fixpoint first_match (rs : list (kind * list str)) (text_lower : str)
  : kind :=
  match rs with
  | [] => general
  | (tag, words) :: rest =>
      if any_in words text_lower then tag else first_match rest text_lower
  end.

Definition classify_by_rules (text : str) : kind :=
  first_match rules (lower text).

(** The table with the keyword "not covered" struck out. *)
Definition rules_without_not_covered : list (kind * list str) :=
  [ (coverage, [lit "cover"; lit "coverage"; lit "benefit"]);
    (waiting_period, [lit "waiting"; lit "period"; lit "wait"]);
    (premium, [lit "premium"; lit "payment"; lit "due"]);
    (exclusion, [lit "exclude"; lit "exclusion"]);
    (amount, [lit "amount"; lit "sum"; lit "limit"]) ].

End WithUnicode.

(** A vector store whose [search] raises. *)
Definition unavailable (query : str) (k : Z)
  : result (list VectorStore.hit) :=
  Raised (RuntimeError "index unavailable").

End ClauseMatcher.

(** ** Further notions used to state properties *)
Module Notions.
Import Py.

(** What is left of [lstrip] is empty or starts with a character that
    is not white space. *)
Definition starts_solid (s : str) : Prop :=
  match s with
  | [] => True
  | c :: _ => is_space c = false
  end.

(** [x] is a contiguous piece of [y]. *)
Definition piece_of (x y : str) : Prop :=
  exists p q : str, y = p ++ x ++ q.

End Notions.

(** ** The texts that a pattern matches, and the shapes of key phrases *)
Module Patterns.
Import Py ClauseMatcher.

(** The language of a pattern, as regular expressions are read. *)
Inductive lang : regex -> str -> Prop :=
| lang_eps : lang Eps []
| lang_chr (c : N) : lang (Chr c) [c]
| lang_cls (p : N -> bool) (c : N) : p c = true -> lang (Cls p) [c]
| lang_cat (a b : regex) (u v : str) :
    lang a u -> lang b v -> lang (Cat a b) (u ++ v)
| lang_alt_l (a b : regex) (u : str) : lang a u -> lang (Alt a b) u
| lang_alt_r (a b : regex) (u : str) : lang b u -> lang (Alt a b) u
| lang_opt_none (a : regex) : lang (Opt a) []
| lang_opt_some (a : regex) (u : str) : lang a u -> lang (Opt a) u
| lang_star_nil (a : regex) : lang (Star a) []
| lang_star_cons (a : regex) (u v : str) :
    lang a u -> lang (Star a) v -> lang (Star a) (u ++ v).

Section WithUnicode.
Context {U : UnicodeData}.

Definition digits (w : str) : Prop := Forall (fun c => is_digit c = true) w.

(** A currency prefix of the source, white space, digits and commas,
    and perhaps a full stop with two digits. *)
Definition money_phrase (m : str) : Prop :=
  exists prefix ws number cents : str,
    m = prefix ++ ws ++ number ++ cents /\
    In prefix [lit "Rs"; lit "Rs."; lit "INR"; [226; 8218; 185]%N] /\
    blank ws /\
    number <> [] /\
    Forall (fun c => is_digit c = true \/ c = 44%N) number /\
    (cents = [] \/
     exists d1 d2 : N,
       cents = [46%N; d1; d2] /\ is_digit d1 = true /\ is_digit d2 = true).

(** Digits, white space, and a unit of time. *)
Definition time_phrase (m : str) : Prop :=
  exists ds ws unit : str,
    m = ds ++ ws ++ unit /\
    ds <> [] /\ digits ds /\ blank ws /\
    In unit [lit "day"; lit "days"; lit "month"; lit "months";
             lit "year"; lit "years"].

(** Digits, perhaps a full stop and more digits, and a per cent sign. *)
Definition percent_phrase (m : str) : Prop :=
  exists ds fraction : str,
    m = ds ++ fraction ++ [37%N] /\
    ds <> [] /\ digits ds /\
    (fraction = [] \/
     exists fs : str, fraction = 46%N :: fs /\ fs <> [] /\ digits fs).

End WithUnicode.

(** The rule table without the keywords that another keyword of the
    same or of an earlier rule makes idle. *)
Definition rules_in_effect : list (kind * list str) :=
  [ (coverage, [lit "cover"; lit "benefit"]);
    (waiting_period, [lit "period"; lit "wait"]);
    (premium, [lit "premium"; lit "payment"; lit "due"]);
    (exclusion, [lit "exclude"; lit "exclusion"]);
    (amount, [lit "amount"; lit "sum"; lit "limit"]) ].

End Patterns.

(** ** [app/services/document_loader.py]: text extraction

    The PDF and DOCX libraries and the temporary file are outside the
    code. A call is modelled against what they do with the given
    content: whether the temporary file could be written and removed,
    whether a library could open the content, and what
    [extract_text()] gives, or raises, page by page. *)
Module Extraction.
Import Py VectorStore.

(** The two mode flags that [DocumentLoader.__init__] sets, and its two
    page limits. *)
Record loader : Type := {
  use_local_mode : bool;
  hackathon_mode : bool
}.

Definition max_pages_local : Z := 5.
Definition max_pages_hackathon : Z := 10.

(** [page.extract_text()]: it raises, or returns [None] or a text. *)
Definition page : Type := result (option str).

(** What the surroundings do with the content of one call. *)
Record surroundings : Type := {
  temp_file : result unit;            (* NamedTemporaryFile, write, flush *)
  unlink : result unit;               (* os.unlink(tmp_file.name) *)
  pdfplumber_open : result (list page);   (* pdfplumber.open(...).pages *)
  pypdf_reader : result (list page);      (* pypdf.PdfReader(...).pages *)
  docx_document : result (list str)   (* Document(...).paragraphs, their text *)
}.

(** The body of both page loops:
    [if text and text.strip(): texts.append((text.strip(), page_num + 1))] *)
Definition keep_page (texts : list (str * Z)) (text : option str)
           (page_num : Z) : list (str * Z) :=
  match text with
  | Some t =>
      if truthy t && truthy (strip t)
      then texts ++ [(strip t, page_num + 1)]
      else texts
  | None => texts
  end.

(** [for page_num, page in enumerate(pages): ...], from [page_num] on. *)
Fixpoint read_pages (pages : list page) (page_num : Z)
         (texts : list (str * Z)) : result (list (str * Z)) :=
  match pages with
  | [] => Returned texts
  | page :: rest =>
      text <- page ;;
      read_pages rest (page_num + 1) (keep_page texts text page_num)
  end.

Definition could_not_extract : list (str * Z) :=
  [(lit "Could not extract text from PDF", 1)].

(** [DocumentLoader.extract_text_from_pdf_pypdf(self, content)] *)
Definition extract_text_from_pdf_pypdf (self : loader) (io : surroundings)
  : result (list (str * Z)) :=
  match
    (pages <- pypdf_reader io ;;
     let max_pages :=
       if use_local_mode self then Some max_pages_local
       else if hackathon_mode self then Some max_pages_hackathon
       else None in
     read_pages
       (match max_pages with
        | Some m => slice_to pages m
        | None => pages
        end) 0 [])
  with
  | Returned texts => Returned texts
  | Raised _ => Returned could_not_extract
  end.

(** [DocumentLoader.extract_text_from_pdf_pdfplumber(self, content)];
    the [finally] removes the temporary file, and an exception there
    replaces the result. *)
Definition extract_text_from_pdf_pdfplumber (self : loader)
           (io : surroundings) : result (list (str * Z)) :=
  _ <- temp_file io ;;
  let outcome :=
    match
      (pages <- pdfplumber_open io ;;
       let max_pages :=
         if use_local_mode self then max_pages_local
         else if hackathon_mode self then max_pages_hackathon
         else len pages in
       read_pages (slice_to pages max_pages) 0 [])
    with
    | Returned texts => Returned texts
    | Raised _ => extract_text_from_pdf_pypdf self io
    end in
  _ <- unlink io ;;
  outcome.

(** [DocumentLoader.extract_text_from_pdf(self, content)] *)
Definition extract_text_from_pdf (self : loader) (io : surroundings)
  : result (list (str * Z)) :=
  match extract_text_from_pdf_pdfplumber self io with
  | Returned texts => Returned texts
  | Raised _ => extract_text_from_pdf_pypdf self io
  end.

(** [for i, paragraph in enumerate(doc.paragraphs): ...], from [i] on. *)
Fixpoint read_paragraphs (paragraphs : list str) (i : Z)
         (texts : list (str * Z)) : list (str * Z) :=
  match paragraphs with
  | [] => texts
  | paragraph :: rest =>
      read_paragraphs rest (i + 1)
        (if truthy (strip paragraph)
         then texts ++ [(strip paragraph, i + 1)]
         else texts)
  end.

(** [DocumentLoader.extract_text_from_docx(content)] *)
Definition extract_text_from_docx (io : surroundings)
  : result (list (str * Z)) :=
  _ <- temp_file io ;;
  let outcome :=
    paragraphs <- docx_document io ;;
    Returned (read_paragraphs paragraphs 0 []) in
  _ <- unlink io ;;
  outcome.

(** What every extracted entry looks like: a text that is not empty
    and has no white space at its ends, with a number from 1 on. *)
Definition well_formed (entry : str * Z) : Prop :=
  fst entry <> [] /\ strip (fst entry) = fst entry /\ 1 <= snd entry.

(** The page limit of the mode: 5, 10, or none. *)
Definition page_limit_holds (self : loader) (n : Z) : Prop :=
  (use_local_mode self = true -> n <= max_pages_local) /\
  (use_local_mode self = false -> hackathon_mode self = true ->
   n <= max_pages_hackathon).

(** Surroundings to try the extraction on. A document, page by page: a cover without text, a page that
    [extract_text] gives as [None], and two pages of text. *)
Definition four_pages : list page :=
  [Returned (Some (lit "  ")); Returned None;
   Returned (Some (lit " Terms. ")); Returned (Some (lit "Limits"))].

Definition quiet (pages : result (list page)) : surroundings :=
  {| temp_file := Returned tt; unlink := Returned tt;
     pdfplumber_open := pages;
     pypdf_reader := Raised (RuntimeError "not a PDF");
     docx_document := Returned [lit "Title"; lit "   "; lit " Body. "] |}.

End Extraction.

(** ** [app/services/logic_evaluator.py]: the parts without the
    language model *)
Module LogicEvaluator.
Import Py VectorStore ClauseMatcher.

(** A value that [json.loads] builds. *)
#[warnings="-register-all"]
Inductive json : Type :=
| JNull
| JBool (b : bool)
| JNum (q : Q)
| JStr (s : str)
| JList (l : list json)
| JDict (d : list (str * json)).

(** [KeyError] and [TypeError], which the exceptions of [Py] do not
    list, are written as [RuntimeError] with their name. *)
Definition KeyError : exn := RuntimeError "KeyError".
Definition TypeError : exn := RuntimeError "TypeError".

Definition closing_brace : N := 125.

(** [EnhancedLogicEvaluator._clean_json_response(self, response_text)] *)
Definition _clean_json_response (response_text : str) : str :=
  let json_str := strip response_text in
  let json_str :=
    if starts_with (lit "```json") json_str then slice json_str 7 (-3)
    else if starts_with (lit "```") json_str then slice json_str 3 (-3)
    else json_str in
  let json_str :=
    let last_brace := rfind json_str closing_brace 0 (len json_str) in
    if negb (last_brace =? -1) then slice_to json_str (last_brace + 1)
    else json_str in
  strip json_str.

(** The second step of [_clean_json_response] on its own: the text up
    to its last closing brace, or all of it if it has none. *)
Definition up_to_last_brace (s : str) : str :=
  let last_brace := rfind s closing_brace 0 (len s) in
  if negb (last_brace =? -1) then slice_to s (last_brace + 1) else s.

(** A text between an opening and a closing brace, as a JSON object is
    written. *)
Definition json_object (inner : str) : str :=
  lit "{" ++ inner ++ [closing_brace].

(** The [required_fields] of [_validate_response_structure]. *)
Definition required_fields (query : str) : list (string * json) :=
  [ ("question", JStr query);
    ("answer",
     JStr (lit "The document does not provide enough information to answer this question."));
    ("source", JStr (lit "No specific source identified"));
    ("confidence", JStr (lit "Low"));
    ("decision", JStr (lit "insufficient_info"));
    ("amount", JNull);
    ("justification",
     JStr (lit "Unable to determine from provided document chunks"));
    ("supporting_chunks", JList []);
    ("key_quotes", JList []) ].

(** [for field, default_value in required_fields.items():
       if field not in result: result[field] = default_value] *)
Definition fill (res : gmap string json) (fields : list (string * json))
  : gmap string json :=
  fold_left
    (fun r fd => match r !! fst fd with
                 | Some _ => r
                 | None => <[fst fd := snd fd]> r
                 end)
    fields res.

(** [v in valid] for a list of strings: only an equal string is in. *)
Definition is_one_of (v : json) (valid : list str) : bool :=
  match v with
  | JStr s => bool_decide (s ∈ valid)
  | _ => false
  end.

(** [if result[field] not in valid: result[field] = fallback] *)
Definition fix_field (field : string) (valid : list str) (fallback : str)
           (res : gmap string json) : result (gmap string json) :=
  match res !! field with
  | None => Raised KeyError
  | Some v =>
      Returned (if is_one_of v valid then res
                else <[field := JStr fallback]> res)
  end.

Definition valid_confidence : list str :=
  [lit "High"; lit "Medium"; lit "Low"].

Definition valid_decisions : list str :=
  [lit "approved"; lit "denied"; lit "not_applicable";
   lit "insufficient_info"].

(** The keys of [required_fields]. *)
Definition required_keys : list string :=
  ["question"; "answer"; "source"; "confidence"; "decision"; "amount";
   "justification"; "supporting_chunks"; "key_quotes"].

(** The value under [field] is one of the strings of [valid]. *)
Definition holds_one_of (res : gmap string json) (field : string)
           (valid : list str) : Prop :=
  exists s : str, res !! field = Some (JStr s) /\ s ∈ valid.

(** [EnhancedLogicEvaluator._validate_response_structure(self, result,
    query)] *)
Definition _validate_response_structure (res : gmap string json)
           (query : str) : result (gmap string json) :=
  let res := fill res (required_fields query) in
  res <- fix_field "confidence" valid_confidence (lit "Low") res ;;
  fix_field "decision" valid_decisions (lit "insufficient_info") res.

(** The tags of [_classify_query_type] (in Python, strings of the same
    spelling). *)
Inductive query_type : Type :=
| age_verification
| medical_coverage
| policy_inquiry
| temporal_query
| general_inquiry.

(** The Python string of a clause tag. *)
Definition kind_name (k : kind) : str :=
  match k with
  | coverage => lit "coverage"
  | waiting_period => lit "waiting_period"
  | premium => lit "premium"
  | exclusion => lit "exclusion"
  | amount => lit "amount"
  | general => lit "general"
  end.

(** A value in a clause [dict]. *)
Inductive field : Type :=
| FStr (s : str)
| FNum (q : Q)
| FMeta (m : gmap string value)
| FStrs (l : list str).

(** The [dict] that [find_relevant_clauses] builds for a hit, key by
    key. *)
Definition as_dict (c : clause) : gmap string field :=
  {[ "text" := FStr (text c);
     "relevance_score" := FNum (relevance_score c);
     "metadata" := FMeta (metadata c);
     "clause_type" := FStr (kind_name (clause_type c));
     "key_phrases" := FStrs (key_phrases c) ]}.

Global Instance value_eq_dec : EqDecision value.
Proof. solve_decision. Defined.

Global Instance value_countable : Countable value :=
  inj_countable'
    (fun v => match v with VInt z => inl z | VStr s => inr s end)
    (fun x => match x with inl z => VInt z | inr s => VStr s end)
    (fun v => match v with VInt _ => eq_refl | VStr _ => eq_refl end).

(** The [dict] that [_evaluate_clauses_local_mode] returns. *)
Record local_result : Type := {
  answer : str;
  confidence : Q;
  reasoning : str;
  pages : gset value;
  chunks_analyzed : Z;
  relevant_sections : Z;
  processing_mode : str;
  query_type_of : query_type;
  document_coverage : str
}.

(** [str(n)] *)
Definition str_of_int (n : Z) : str :=
  lit (NilZero.string_of_int (Z.to_int n)).

Section WithUnicode.
Context {U : UnicodeData}.

(** [EnhancedLogicEvaluator._classify_query_type(self, query)] *)
Definition _classify_query_type (query : str) : query_type :=
  let query_lower := lower query in
  if any_in [lit "age"; lit "year"; lit "old"] query_lower
  then age_verification
  else if any_in [lit "surgery"; lit "treatment"; lit "medical"] query_lower
  then medical_coverage
  else if any_in [lit "policy"; lit "insurance"] query_lower
  then policy_inquiry
  else if any_in [lit "time"; lit "period"; lit "month"] query_lower
  then temporal_query
  else general_inquiry.

(** [EnhancedLogicEvaluator._generate_local_answer(self, query,
    relevant_text)]; each [return] inside an [if] is an early one. *)
Definition _generate_local_answer (query relevant_text : str) : str :=
  let query_lower := lower query in
  let text_lower := lower relevant_text in
  if any_in [lit "age"; lit "year"; lit "old"] query_lower
     && (contains (lit "age") text_lower || contains (lit "year") text_lower)
  then lit "Based on the document analysis, the age-related information shows: "
       ++ slice_to relevant_text 200 ++ lit "..."
  else if any_in [lit "surgery"; lit "treatment"; lit "medical"] query_lower
          && any_in [lit "surgery"; lit "treatment"; lit "medical";
                     lit "hospital"] text_lower
  then lit "Regarding medical/surgery coverage: "
       ++ slice_to relevant_text 200 ++ lit "..."
  else if any_in [lit "policy"; lit "insurance"; lit "coverage"] query_lower
          && any_in [lit "policy"; lit "coverage"; lit "benefit"] text_lower
  then lit "Policy information found: "
       ++ slice_to relevant_text 200 ++ lit "..."
  else if any_in [lit "month"; lit "time"; lit "period"] query_lower
          && any_in [lit "month"; lit "day"; lit "year"; lit "period"]
               text_lower
  then lit "Time period information: "
       ++ slice_to relevant_text 200 ++ lit "..."
  else lit "Based on the document analysis: "
       ++ slice_to relevant_text 300 ++ lit "...".

(** [clause.get('content', '') + " "] *)
Definition content_and_space (clause : gmap string field) : result str :=
  match clause !! "content" with
  | None => Returned (lit "" ++ lit " ")
  | Some (FStr s) => Returned (s ++ lit " ")
  | Some _ => Raised TypeError
  end.

(** [if 'metadata' in clause and 'page' in clause['metadata']:
       source_pages.append(clause['metadata']['page'])] *)
Definition note_page (clause : gmap string field) (source_pages : list value)
  : result (list value) :=
  match clause !! "metadata" with
  | None => Returned source_pages
  | Some (FMeta m) =>
      match m !! "page" with
      | Some page => Returned (source_pages ++ [page])
      | None => Returned source_pages
      end
  | Some (FStr s) =>
      if contains (lit "page") s then Raised TypeError
      else Returned source_pages
  | Some (FStrs l) =>
      if bool_decide (lit "page" ∈ l) then Raised TypeError
      else Returned source_pages
  | Some (FNum _) => Raised TypeError
  end.

(** The [for clause in clauses[:3]] loop of the local mode. *)
Fixpoint gather (clauses : list (gmap string field)) (relevant_text : str)
         (source_pages : list value) : result (str * list value) :=
  match clauses with
  | [] => Returned (relevant_text, source_pages)
  | clause :: rest =>
      piece <- content_and_space clause ;;
      source_pages <- note_page clause source_pages ;;
      gather rest (relevant_text ++ piece) source_pages
  end.

(** [EnhancedLogicEvaluator._evaluate_clauses_local_mode(self, query,
    clauses)] *)
Definition _evaluate_clauses_local_mode (query : str)
           (clauses : list (gmap string field)) : result local_result :=
  gathered <- gather (slice_to clauses 3) (lit "") [] ;;
  let relevant_text := fst gathered in
  let source_pages := snd gathered in
  Returned
    {| answer := _generate_local_answer query relevant_text;
       confidence := 85 # 100;
       reasoning :=
         lit "Analysis based on document content using local processing";
       pages := list_to_set source_pages;
       chunks_analyzed := len clauses;
       relevant_sections := Z.min 3 (len clauses);
       processing_mode := lit "local";
       query_type_of := _classify_query_type query;
       document_coverage :=
         str_of_int (Z.min 100 (len clauses * 10)) ++ lit "%" |}.

End WithUnicode.

End LogicEvaluator.

(** ** [app/api/v1/endpoints.py]: the two loops of [process_queries] *)
Module Endpoints.
Import Py VectorStore ClauseMatcher LogicEvaluator.

(** The three values of [app/core/config.py] that the loops read. *)
Record settings : Type := {
  MAX_CHUNK_SIZE : Z;
  CHUNK_OVERLAP : Z;
  TOP_K_RESULTS : Z
}.

Definition default_settings : settings :=
  {| MAX_CHUNK_SIZE := 1000; CHUNK_OVERLAP := 200; TOP_K_RESULTS := 5 |}.

(** [{'page': page_num, 'source': 'document'}] *)
Definition page_metadata (page_num : Z) : gmap string value :=
  {[ "page" := VInt page_num; "source" := VStr (lit "document") ]}.

(** [for text, page_num in text_chunks: ...] (lines 100 to 103); every
    call of [chunk_text] gets the fuel, and running out in one of them
    is running out. *)
Fixpoint chunk_pages (fuel : nat) (cfg : settings)
         (text_chunks : list (str * Z))
         (all_chunks : list str) (chunk_metadata : list (gmap string value))
  : option (result (list str * list (gmap string value))) :=
  match text_chunks with
  | [] => Some (Returned (all_chunks, chunk_metadata))
  | (text, page_num) :: rest =>
      match DocumentLoader.chunk_text fuel text (MAX_CHUNK_SIZE cfg)
              (CHUNK_OVERLAP cfg) with
      | Some (Returned chunks) =>
          chunk_pages fuel cfg rest (all_chunks ++ chunks)
            (chunk_metadata ++
               replicate (length chunks) (page_metadata page_num))
      | Some (Raised e) => Some (Raised e)
      | None => None
      end
  end.

(** The chunk [chunk] with the metadata [m] comes from a page of
    [text_chunks]: it is one of the chunks of the text of that page, and
    [m] names that page. *)
Definition from_page (fuel : nat) (cfg : settings)
           (text_chunks : list (str * Z)) (chunk : str)
           (m : gmap string value) : Prop :=
  exists (text : str) (page_num : Z) (chunks : list str),
    In (text, page_num) text_chunks /\
    DocumentLoader.chunk_text fuel text (MAX_CHUNK_SIZE cfg)
      (CHUNK_OVERLAP cfg) = Some (Returned chunks) /\
    In chunk chunks /\
    m = page_metadata page_num.

Section Indexing.
Context {S : Services}.

(** Lines 96 to 112: the chunks of all pages, added to a fresh store. *)
Definition index_document (fuel : nat) (cfg : settings)
           (text_chunks : list (str * Z)) : option (result t) :=
  match chunk_pages fuel cfg text_chunks [] [] with
  | Some (Returned (all_chunks, chunk_metadata)) =>
      match add_documents all_chunks (Some chunk_metadata) init with
      | (request_vector_store, Returned _) =>
          Some (Returned request_vector_store)
      | (_, Raised e) => Some (Raised e)
      end
  | Some (Raised e) => Some (Raised e)
  | None => None
  end.

End Indexing.

Section Questions.
Context {U : UnicodeData}.

(** The services that the question loop calls: the query parser, the
    [search] of the vector store of the request, the evaluator, and
    [str(e)]. *)
Variable parse_query : str -> result (gmap string (list str)).
Variable vector_store_search : str -> Z -> result (list hit).
Variable evaluate_clauses : str -> list clause -> result (gmap string json).
Variable str_of_exn : exn -> str.

(** The body of the [try] for one question. *)
Definition answer_or_raise (cfg : settings) (query : str) : result json :=
  parsed_query <- parse_query query ;;
  relevant_clauses <-
    find_relevant_clauses vector_store_search parsed_query
      (TOP_K_RESULTS cfg) ;;
  if negb (truthy relevant_clauses)
  then Returned
         (JStr (lit "No relevant information found in the document for this query."))
  else
    evaluation_result <- evaluate_clauses query relevant_clauses ;;
    Returned
      (default (JStr (lit "Unable to find relevant information"))
               (evaluation_result !! "answer")).

(** One turn of [for i, query in enumerate(request.questions)]. *)
Definition answer_one (cfg : settings) (query : str) : json :=
  match answer_or_raise cfg query with
  | Returned answer => answer
  | Raised e => JStr (lit "Error processing query: " ++ str_of_exn e)
  end.

(** The loop (lines 122 to 154). *)
Fixpoint answer_questions (cfg : settings) (questions : list str)
         (answers : list json) : list json :=
  match questions with
  | [] => answers
  | query :: rest =>
      answer_questions cfg rest (answers ++ [answer_one cfg query])
  end.

End Questions.

End Endpoints.

(* ===================================================================== *)
(** * Properties                                                          *)
(* ===================================================================== *)

(** ** Facts about the Python primitives *)
Module PyFacts.
Import Py.

Lemma lstrip_blank (s : str) : blank s -> lstrip s = [].
Proof.
  induction 1 as [|c s Hc _ IH]; simpl; [reflexivity|].
  now rewrite Hc.
Qed.

Lemma lstrip_nil_blank (s : str) : lstrip s = [] -> blank s.
Proof.
  induction s as [|c s IH]; simpl; intros H; [constructor|].
  destruct (is_space c) eqn:Hc; [|discriminate].
  constructor; [exact Hc | exact (IH H)].
Qed.

Lemma strip_blank (s : str) : blank s -> strip s = [].
Proof.
  intros H. unfold strip, rstrip. now rewrite (lstrip_blank s H).
Qed.

Lemma strip_nil_blank (s : str) : strip s = [] -> blank s.
Proof.
  unfold strip, rstrip. intros H.
  apply (f_equal (@rev N)) in H. rewrite rev_involutive in H. simpl in H.
  apply lstrip_nil_blank in H.
  assert (Hl : blank (lstrip s)).
  { apply List.Forall_rev in H. now rewrite rev_involutive in H. }
  clear H. induction s as [|c s IH]; [constructor|].
  simpl in Hl. destruct (is_space c) eqn:Hc.
  - constructor; [exact Hc | exact (IH Hl)].
  - inversion Hl; congruence.
Qed.

Lemma slice_blank (s : str) (a b : Z) : blank s -> blank (slice s a b).
Proof.
  intros H. unfold slice, blank. now apply Forall_take, Forall_drop.
Qed.

Lemma len_nonneg {A : Type} (l : list A) : (0 <= len l)%Z.
Proof. unfold len. lia. Qed.

(** A negative stop of a slice counts from the end. *)
Lemma slice_to_negative {A : Type} (l : list A) (k : Z) :
  (k < 0)%Z -> slice_to l k = take (length l - Z.to_nat (- k)) l.
Proof.
  intros Hk. unfold slice_to, adjust, len.
  rewrite (proj2 (Z.ltb_lt _ _) Hk). f_equal. lia.
Qed.

(** *** Substrings *)

Lemma starts_with_app (p s : str) : starts_with p (p ++ s) = true.
Proof.
  induction p as [|c p IH]; simpl; [now destruct s|].
  now rewrite N.eqb_refl.
Qed.

Lemma starts_with_inv (p s : str) :
  starts_with p s = true -> exists b : str, s = p ++ b.
Proof.
  revert s. induction p as [|c p IH]; intros s H.
  - now exists s.
  - destruct s as [|x s]; simpl in H; [discriminate|].
    apply andb_true_iff in H as [Hc Hp]. apply N.eqb_eq in Hc. subst x.
    destruct (IH s Hp) as [b ->]. now exists b.
Qed.

Lemma contains_prefix (sub s : str) :
  starts_with sub s = true -> contains sub s = true.
Proof. intros H. destruct s; simpl; now rewrite H. Qed.

Lemma contains_app (sub a b : str) : contains sub (a ++ sub ++ b) = true.
Proof.
  induction a as [|c a IH].
  - rewrite app_nil_l. apply contains_prefix, starts_with_app.
  - cbn [app contains]. rewrite IH. apply orb_true_r.
Qed.

Lemma contains_inv (sub s : str) :
  contains sub s = true -> exists a b : str, s = a ++ sub ++ b.
Proof.
  induction s as [|c s IH]; simpl; intros H.
  - rewrite orb_false_r in H. apply starts_with_inv in H as [b ->].
    now exists [], b.
  - apply orb_true_iff in H as [H|H].
    + apply starts_with_inv in H as [b ->]. now exists [], b.
    + destruct (IH H) as (a & b & ->). now exists (c :: a), b.
Qed.

(** A text that holds [y] holds every substring of [y]. *)
Lemma contains_trans (x y z : str) :
  contains x y = true -> contains y z = true -> contains x z = true.
Proof.
  intros Hxy Hyz.
  apply contains_inv in Hxy as (a & b & ->).
  apply contains_inv in Hyz as (a' & b' & ->).
  replace (a' ++ (a ++ x ++ b) ++ b') with ((a' ++ a) ++ x ++ (b ++ b'))
    by now rewrite <- !app_assoc.
  apply contains_app.
Qed.

(** *** Lower case *)

Lemma ascii_lower_small (c : N) : (ascii_lower c < 128)%N -> (c < 128)%N.
Proof.
  unfold ascii_lower.
  destruct ((65 <=? c) && (c <=? 90))%N eqn:E; [|trivial].
  apply andb_true_iff in E as [_ E]. apply N.leb_le in E. lia.
Qed.

Lemma ascii_of_lower (w v : str) :
  List.map ascii_lower w = v -> ascii v -> ascii w.
Proof.
  intros <-. unfold ascii. rewrite List.Forall_map.
  apply List.Forall_impl. intros c. apply ascii_lower_small.
Qed.

Section WithUnicode.
Context {U : UnicodeData}.

(** What stands before a word does not change how the word and what
    follows it are written, up to the context handed on. *)
Lemma lower_from_skip (a rest before : str) :
  exists x : str,
    lower_from before (a ++ rest) = x ++ lower_from (before ++ a) rest.
Proof.
  revert before. induction a as [|c a IH]; intros before; simpl.
  - exists []. now rewrite app_nil_r.
  - destruct (IH (before ++ [c])) as [x Hx]. rewrite Hx.
    exists (lower_char before c (a ++ rest) ++ x).
    now rewrite <- !app_assoc.
Qed.

(** An ASCII word is lowered letter by letter, whatever surrounds it. *)
Lemma lower_from_ascii (w rest before : str) :
  ascii w ->
  lower_from before (w ++ rest) =
  List.map ascii_lower w ++ lower_from (before ++ w) rest.
Proof.
  intros Hw. revert before.
  induction Hw as [|c w Hc _ IH]; intros before; simpl.
  - now rewrite app_nil_r.
  - unfold lower_char at 1. rewrite (proj2 (N.ltb_lt _ _) Hc). simpl.
    rewrite IH. now rewrite <- app_assoc.
Qed.

Lemma contains_lower (w text : str) :
  ascii w ->
  contains w text = true ->
  contains (List.map ascii_lower w) (lower text) = true.
Proof.
  intros Hw H. apply contains_inv in H as (a & b & ->).
  unfold lower. destruct (lower_from_skip a (w ++ b) []) as [x ->].
  rewrite lower_from_ascii by assumption. apply contains_app.
Qed.

End WithUnicode.

End PyFacts.

(** ** The chunker *)
Module Chunker.
Import Py PyFacts DocumentLoader.

(** One turn of the loop that does not meet the [break]. *)
Lemma chunk_loop_turn (fuel : nat) (text : str) (chunk_size overlap start : Z)
      (chunks : list str) (end_ : Z) (chunk : str) :
  start < len text ->
  window text chunk_size start = (end_, chunk) ->
  end_ < len text ->
  chunk_loop (S fuel) text chunk_size overlap start chunks =
  chunk_loop fuel text chunk_size overlap (end_ - overlap) (keep chunks chunk).
Proof.
  intros Hs Hw He. cbn [chunk_loop].
  rewrite (proj2 (Z.ltb_lt _ _) Hs), Hw.
  destruct (Z.geb_spec end_ (len text)); [lia | reflexivity].
Qed.

(** A window that leads back to its own start is entered for ever. *)
Lemma chunk_loop_stuck (text : str) (chunk_size overlap start : Z) :
  start < len text ->
  fst (window text chunk_size start) < len text ->
  fst (window text chunk_size start) - overlap = start ->
  forall (fuel : nat) (chunks : list str),
    chunk_loop fuel text chunk_size overlap start chunks = None.
Proof.
  intros Hs He Hback fuel.
  induction fuel as [|fuel IH]; intros chunks; [reflexivity|].
  destruct (window text chunk_size start) as [end_ chunk] eqn:Hw.
  simpl in He, Hback.
  rewrite (chunk_loop_turn fuel text chunk_size overlap start chunks end_ chunk)
    by assumption.
  rewrite Hback. apply IH.
Qed.

Lemma keep_nonempty (chunks : list str) (chunk : str) :
  Forall (fun c => c <> []) chunks ->
  Forall (fun c => c <> []) (keep chunks chunk).
Proof.
  intros H. unfold keep. destruct chunk as [|x chunk]; simpl; [assumption|].
  apply Forall_app. split; [assumption|]. constructor; [discriminate|constructor].
Qed.

Lemma chunk_loop_nonempty (fuel : nat) (text : str) (chunk_size overlap : Z) :
  forall (start : Z) (chunks out : list str),
    Forall (fun c => c <> []) chunks ->
    chunk_loop fuel text chunk_size overlap start chunks = Some (Returned out) ->
    Forall (fun c => c <> []) out.
Proof.
  induction fuel as [|fuel IH]; intros start chunks out Hc H; [discriminate|].
  cbn [chunk_loop] in H.
  destruct (start <? len text); [|congruence].
  destruct (window text chunk_size start) as [end_ chunk].
  destruct (end_ >=? len text).
  - injection H as <-. now apply keep_nonempty.
  - eapply IH; [|exact H]. now apply keep_nonempty.
Qed.

Lemma window_blank (text : str) (chunk_size start : Z) :
  blank text -> snd (window text chunk_size start) = [].
Proof.
  intros H. unfold window. cbn [snd]. apply strip_blank. now apply slice_blank.
Qed.

Lemma chunk_loop_blank (fuel : nat) (text : str) (chunk_size overlap : Z) :
  blank text ->
  forall (start : Z) (chunks out : list str),
    chunk_loop fuel text chunk_size overlap start chunks = Some (Returned out) ->
    out = chunks.
Proof.
  intros Hb. induction fuel as [|fuel IH]; intros start chunks out H;
    [discriminate|].
  cbn [chunk_loop] in H.
  destruct (start <? len text); [|congruence].
  pose proof (window_blank text chunk_size start Hb) as Hw.
  destruct (window text chunk_size start) as [end_ chunk]. simpl in Hw. subst chunk.
  cbn [keep truthy] in H.
  destruct (end_ >=? len text); [congruence|]. eapply IH; exact H.
Qed.

(** There is no [raise] on any path of the loop. *)
Lemma chunk_loop_no_raise (fuel : nat) (text : str) (chunk_size overlap : Z) :
  forall (start : Z) (chunks : list str) (e : exn),
    chunk_loop fuel text chunk_size overlap start chunks <> Some (Raised e).
Proof.
  induction fuel as [|fuel IH]; intros start chunks e; [discriminate|].
  cbn [chunk_loop].
  destruct (start <? len text); [|discriminate].
  destruct (window text chunk_size start) as [end_ chunk].
  destruct (end_ >=? len text); [discriminate | apply IH].
Qed.

(** Where the start does move forward: with a positive chunk size and
    no overlap every window ends after its start, and the loop is over
    within one turn per character. *)
Lemma window_end_after_start (text : str) (chunk_size start : Z) :
  0 < chunk_size -> start < fst (window text chunk_size start).
Proof.
  intros Hsize. unfold window. cbn [fst].
  destruct (start + chunk_size <? len text); [|lia].
  destruct (rfind text period start (start + chunk_size) >? start) eqn:E;
    [|lia].
  apply Z.gtb_lt in E. lia.
Qed.

Lemma chunk_loop_returns (text : str) (chunk_size overlap : Z) :
  0 < chunk_size ->
  overlap <= 0 ->
  forall (fuel : nat) (start : Z) (chunks : list str),
    Z.max 0 (len text - start) < Z.of_nat fuel ->
    exists out : list str,
      chunk_loop fuel text chunk_size overlap start chunks = Some (Returned out).
Proof.
  intros Hsize Hov. induction fuel as [|fuel IH]; intros start chunks Hfuel;
    [lia|].
  cbn [chunk_loop]. destruct (Z.ltb_spec start (len text)); [|eauto].
  pose proof (window_end_after_start text chunk_size start Hsize) as Hend.
  destruct (window text chunk_size start) as [end_ chunk]. cbn [fst] in Hend.
  destruct (Z.geb_spec end_ (len text)); [eauto|].
  apply IH. lia.
Qed.

Lemma chunk_text_returns_without_overlap (text : str)
      (chunk_size overlap : Z) :
  0 < chunk_size ->
  overlap <= 0 ->
  exists chunks : list str,
    chunk_text (S (length text)) text chunk_size overlap =
    Some (Returned chunks).
Proof.
  intros Hsize Hov. unfold chunk_text.
  destruct (len text <=? chunk_size); [eauto|].
  apply chunk_loop_returns; try assumption. unfold len. lia.
Qed.

(** C2, where the code fails it. The claim: for every text longer than
    [chunk_size] and every overlap, [overlap >= chunk_size] included,
    the loop ends because the start index moves forward in each turn.
    The code does not clamp the overlap: on twelve letters with
    [chunk_size = 5] and [overlap = 5] each turn puts [start] back to
    [0], and no amount of fuel lets the call return. *)
Theorem chunk_text_overlap_equal_size_never_returns :
  forall fuel : nat, chunk_text fuel (lit "aaaaaaaaaaaa") 5 5 = None.
Proof.
  intros fuel. unfold chunk_text.
  replace (len (lit "aaaaaaaaaaaa") <=? 5) with false by reflexivity.
  apply chunk_loop_stuck; vm_compute; reflexivity.
Qed.

(** The same loop under the settings the service runs with
    ([chunk_size = 1000], [overlap = 200], so the overlap is below the
    chunk size): the only full stop of the first window ends the
    heading, the window is cut back to it, and [start] falls to [-194]
    and then stays at [-200]. *)
Theorem chunk_text_default_settings_never_returns :
  forall fuel : nat,
    chunk_text fuel heading_then_table MAX_CHUNK_SIZE CHUNK_OVERLAP = None.
Proof.
  intros fuel. unfold chunk_text, MAX_CHUNK_SIZE, CHUNK_OVERLAP.
  replace (len heading_then_table <=? 1000) with false
    by (vm_compute; reflexivity).
  destruct fuel as [|[|fuel]]; [reflexivity | vm_compute; reflexivity |].
  rewrite (chunk_loop_turn (S fuel) heading_then_table 1000 200 0 []
             6 (lit "Sec 1.")) by (vm_compute; reflexivity).
  rewrite (chunk_loop_turn fuel heading_then_table 1000 200 (6 - 200) _
             0 []) by (vm_compute; reflexivity).
  apply chunk_loop_stuck; vm_compute; reflexivity.
Qed.

(** C6, as amended. A text no longer than [chunk_size] is returned as
    the one chunk [[text]], unchanged, also when it is empty or blank.
    A longer text goes through the windows, where a chunk that is empty
    after trimming is dropped: no chunk of the result is empty, and a
    blank text yields no chunk at all. *)
Theorem chunk_text_short_or_trimmed (fuel : nat) (text : str)
        (chunk_size overlap : Z) :
  (len text <= chunk_size ->
   chunk_text fuel text chunk_size overlap = Some (Returned [text])) /\
  (chunk_size < len text ->
   forall chunks : list str,
     chunk_text fuel text chunk_size overlap = Some (Returned chunks) ->
     Forall (fun c => c <> []) chunks /\ (strip text = [] -> chunks = [])).
Proof.
  unfold chunk_text. split.
  - intros H. now rewrite (proj2 (Z.leb_le _ _) H).
  - intros H chunks Hr.
    rewrite (proj2 (Z.leb_gt _ _) H) in Hr. split.
    + eapply chunk_loop_nonempty; [|exact Hr]. constructor.
    + intros Hb. apply strip_nil_blank in Hb.
      exact (chunk_loop_blank fuel text chunk_size overlap Hb 0 [] chunks Hr).
Qed.

Lemma chunk_text_short_or_trimmed_witness :
  chunk_text 3 (lit "No claim.") 1000 200 = Some (Returned [lit "No claim."]) /\
  Forall (fun c : str => c <> []) [lit "ab"; lit "cd"].
Proof.
  split.
  - apply (proj1 (chunk_text_short_or_trimmed 3 (lit "No claim.") 1000 200)).
    vm_compute; discriminate.
  - apply (proj2 (chunk_text_short_or_trimmed 3 (lit " ab  cd ") 4 0)).
    + vm_compute; reflexivity.
    + vm_compute; reflexivity.
Defined.

(** C6 as it was stated fails on the empty text: the early return
    hands it back as a chunk. *)
Lemma chunk_text_empty_input_kept :
  chunk_text 0 (lit "") MAX_CHUNK_SIZE CHUNK_OVERLAP = Some (Returned [lit ""]) /\
  strip (lit "") = [] /\
  chunk_text 0 (lit "") MAX_CHUNK_SIZE CHUNK_OVERLAP <> Some (Returned []).
Proof. repeat split. discriminate. Qed.

(** C7, as amended. With [chunk_size <= 0] the call does not raise, for
    [chunk_size] is not checked: the empty text with [chunk_size = 0]
    comes back as [[text]], and every other text goes into the loop
    with that window size. *)
Theorem chunk_text_nonpositive_size_no_raise (fuel : nat) (text : str)
        (chunk_size overlap : Z) :
  chunk_size <= 0 ->
  (forall e : exn, chunk_text fuel text chunk_size overlap <> Some (Raised e)) /\
  (text = [] /\ chunk_size = 0 ->
   chunk_text fuel text chunk_size overlap = Some (Returned [text])) /\
  (text <> [] \/ chunk_size < 0 ->
   chunk_text fuel text chunk_size overlap =
   chunk_loop fuel text chunk_size overlap 0 []).
Proof.
  intros Hsize. unfold chunk_text. repeat split.
  - intros e. destruct (len text <=? chunk_size); [discriminate|].
    apply chunk_loop_no_raise.
  - intros [-> ->]. reflexivity.
  - intros H. replace (len text <=? chunk_size) with false; [reflexivity|].
    symmetry. apply Z.leb_gt. unfold len.
    destruct H as [H|H]; [|lia]. destruct text; [congruence | simpl; lia].
Qed.

Lemma chunk_text_nonpositive_size_no_raise_witness :
  chunk_text 5 (lit "abc") (-1) (-10) = chunk_loop 5 (lit "abc") (-1) (-10) 0 [].
Proof.
  apply (chunk_text_nonpositive_size_no_raise 5 (lit "abc") (-1) (-10)).
  - lia.
  - right. lia.
Defined.

(** C7 as it was stated fails: calls with [chunk_size <= 0] return. *)
Lemma chunk_text_nonpositive_size_returns :
  chunk_text 5 (lit "") 0 200 = Some (Returned [lit ""]) /\
  chunk_text 5 (lit "abc") (-1) (-10) = Some (Returned [lit "ab"]) /\
  ~ (forall (fuel : nat) (text : str) (chunk_size overlap : Z),
        chunk_size <= 0 ->
        exists e : exn, chunk_text fuel text chunk_size overlap = Some (Raised e)).
Proof.
  repeat split. intros H. destruct (H 5%nat (lit "") 0 200) as [e He]; [lia|].
  discriminate He.
Qed.

End Chunker.

(** ** The vector index *)
Module VectorIndex.
Import Py PyFacts VectorStore.

(** *** Order lemmas for the ranking *)

Lemma StronglySorted_snoc {A : Type} (R : A -> A -> Prop) (l : list A) (x : A) :
  StronglySorted R l -> Forall (fun y => R y x) l -> StronglySorted R (l ++ [x]).
Proof.
  induction 1 as [|a l Hl IH Ha]; intros Hx; simpl.
  - repeat constructor.
  - inversion Hx as [|? ? Hax Hlx]; subst. constructor; [now apply IH|].
    apply Forall_app. split; [assumption | now repeat constructor].
Qed.

Lemma StronglySorted_rev {A : Type} (R : A -> A -> Prop) (l : list A) :
  StronglySorted R l -> StronglySorted (fun x y => R y x) (rev l).
Proof.
  induction 1 as [|a l Hl IH Ha]; simpl; [constructor|].
  apply StronglySorted_snoc; [assumption|]. now apply List.Forall_rev.
Qed.

Lemma StronglySorted_take {A : Type} (R : A -> A -> Prop) (n : nat) (l : list A) :
  StronglySorted R l -> StronglySorted R (take n l).
Proof.
  intros H. revert n. induction H as [|a l Hl IH Ha]; intros [|n]; simpl;
    try constructor; [apply IH | now apply Forall_take].
Qed.

Lemma StronglySorted_filter {A : Type} (R : A -> A -> Prop) (f : A -> bool)
      (l : list A) :
  StronglySorted R l -> StronglySorted R (List.filter f l).
Proof.
  induction 1 as [|a l Hl IH Ha]; simpl; [constructor|].
  destruct (f a); [|assumption]. constructor; [assumption|].
  rewrite List.Forall_forall in *. intros y Hy.
  apply List.filter_In in Hy. now apply Ha.
Qed.

Lemma StronglySorted_map {A B : Type} (R : B -> B -> Prop) (f : A -> B)
      (l : list A) :
  StronglySorted (fun x y => R (f x) (f y)) l -> StronglySorted R (List.map f l).
Proof.
  induction 1 as [|a l Hl IH Ha]; simpl; constructor; [assumption|].
  rewrite List.Forall_forall in *. intros y Hy.
  apply List.in_map_iff in Hy as [x [<- Hx]]. now apply Ha.
Qed.

(** *** The insertion argsort meets the promise of [np.argsort] *)

Lemma insert_index_perm (a : list Q) (i : nat) (l : list nat) :
  Permutation (insert_index a i l) (i :: l).
Proof.
  induction l as [|j l IH]; simpl; [reflexivity|].
  destruct (Qle_bool (nth i a 0%Q) (nth j a 0%Q)); [reflexivity|].
  rewrite IH. apply perm_swap.
Qed.

Lemma insert_index_sorted (a : list Q) (i : nat) (l : list nat) :
  StronglySorted (fun x y => (nth x a 0 <= nth y a 0)%Q) l ->
  StronglySorted (fun x y => (nth x a 0 <= nth y a 0)%Q) (insert_index a i l).
Proof.
  induction 1 as [|j l Hl IH Hj]; simpl; [repeat constructor|].
  destruct (Qle_bool (nth i a 0%Q) (nth j a 0%Q)) eqn:Hle.
  - apply Qle_bool_iff in Hle. constructor; [now constructor|].
    constructor; [assumption|].
    rewrite List.Forall_forall in *. intros y Hy.
    eapply Qle_trans; [exact Hle | now apply Hj].
  - assert (Hji : (nth j a 0 <= nth i a 0)%Q).
    { apply Qlt_le_weak, Qnot_le_lt. intros H.
      apply Qle_bool_iff in H. congruence. }
    constructor; [assumption|].
    rewrite List.Forall_forall in *. intros y Hy.
    apply (Permutation_in _ (insert_index_perm a i l)) in Hy.
    destruct Hy as [<-|Hy]; [assumption | now apply Hj].
Qed.

Lemma insertion_argsort_sorts : sorts insertion_argsort.
Proof.
  intros a. unfold insertion_argsort.
  generalize (seq 0 (length a)) as l. intros l. split.
  - induction l as [|i l IH]; simpl; [reflexivity|].
    rewrite insert_index_perm. now constructor.
  - induction l as [|i l IH]; simpl; [constructor|].
    now apply insert_index_sorted.
Qed.

Section WithServices.
Context {S : Services}.

(** *** [add_documents] *)

(** The three ways a call ends: nothing to add, an exception with the
    store untouched, or all three attributes extended. *)
Lemma add_documents_cases (self : t) (texts : list str)
      (metadata : option (list meta)) :
  (texts = [] /\ add_documents texts metadata self = (self, Returned tt)) \/
  (exists e : exn, add_documents texts metadata self = (self, Raised e)) \/
  (exists new_embeddings stacked : ndarray,
      texts <> [] /\
      encode texts = Returned new_embeddings /\
      length (rows stacked) = (n_embeddings self + length (rows new_embeddings))%nat /\
      add_documents texts metadata self =
      ({| embeddings := Some stacked;
          VectorStore.texts := VectorStore.texts self ++ texts;
          VectorStore.metadata :=
            VectorStore.metadata self ++ appended texts metadata |},
       Returned tt)).
Proof.
  unfold add_documents, try_except, seq_, call, get, reraise, appended,
    n_embeddings.
  destruct texts as [|x texts]; [left; split; reflexivity|].
  cbn [truthy negb]. right.
  destruct (encode (x :: texts)) as [new_embeddings|e] eqn:Henc;
    [|left; exists e; reflexivity].
  destruct (embeddings self) as [old|] eqn:Hemb.
  - unfold vstack. destruct (Nat.eqb (ncols old) (ncols new_embeddings)).
    + right. eexists new_embeddings, _. repeat split; [discriminate| |].
      2:{ cbn. destruct (given metadata); reflexivity. }
      cbn. now rewrite length_app.
    + left. exists ValueError. reflexivity.
  - right. exists new_embeddings, new_embeddings. repeat split; [discriminate|].
    cbn. destruct (given metadata); reflexivity.
Qed.

(** A call that raises leaves the store as it found it. *)
Lemma add_documents_raise_unchanged (self : t) (texts : list str)
      (metadata : option (list meta)) (e : exn) :
  snd (add_documents texts metadata self) = Raised e ->
  fst (add_documents texts metadata self) = self.
Proof.
  destruct (add_documents_cases self texts metadata)
    as [[_ ->]|[[e' ->]|(E & E' & _ & _ & _ & ->)]]; cbn; congruence.
Qed.

Lemma add_documents_rows (self : t) (texts : list str)
      (metadata : option (list meta)) :
  one_row_per_text encode ->
  length (VectorStore.texts self) = n_embeddings self ->
  length (VectorStore.texts (fst (add_documents texts metadata self))) =
  n_embeddings (fst (add_documents texts metadata self)).
Proof.
  intros Henc Hinv.
  destruct (add_documents_cases self texts metadata)
    as [[_ ->]|[[e' ->]|(E & E' & _ & HE & Hlen & ->)]]; cbn; try assumption.
  unfold n_embeddings; cbn. rewrite length_app, Hlen, (Henc _ _ HE). lia.
Qed.

Lemma add_documents_aligned (self : t) (texts : list str)
      (metadata : option (list meta)) :
  one_row_per_text encode ->
  fits texts metadata ->
  aligned self ->
  aligned (fst (add_documents texts metadata self)).
Proof.
  intros Henc Hfit [Hrows Hmeta]. split; [now apply add_documents_rows|].
  destruct (add_documents_cases self texts metadata)
    as [[_ ->]|[[e' ->]|(E & E' & _ & HE & Hlen & ->)]]; cbn; try assumption.
  rewrite !length_app, Hmeta. f_equal. unfold appended.
  destruct Hfit as [->|[ms [-> Hms]]]; [apply length_replicate|].
  destruct ms; cbn in *; [|assumption]. now rewrite length_replicate.
Qed.

(** *** [search] *)

Lemma item_in_range {A : Type} (l : list A) (i : nat) (d : A) :
  (i < length l)%nat -> item l i = Returned (nth i l d).
Proof.
  intros H. unfold item.
  destruct (lookup_lt_is_Some_2 l i H) as [x Hx].
  rewrite Hx. f_equal. symmetry. now apply nth_lookup_Some.
Qed.

(** The loop of [search] keeps, in order, the indices that have a text. *)
Lemma collect_spec (self : t) (similarities : list Q) :
  forall (top_indices : list nat) (results : list hit),
    Forall (fun idx => (idx < length similarities)%nat) top_indices ->
    collect self similarities top_indices results =
    Returned
      (results ++
       List.map (entry self similarities)
         (List.filter (fun idx => Nat.ltb idx (length (texts self)))
            top_indices)).
Proof.
  induction top_indices as [|idx rest IH]; intros results Hin; simpl.
  - now rewrite app_nil_r.
  - inversion Hin as [|? ? Hidx Hrest]; subst.
    destruct (Nat.ltb idx (length (texts self))) eqn:Ht; [|now apply IH].
    apply Nat.ltb_lt in Ht.
    rewrite (item_in_range similarities idx 0%Q Hidx). cbn [bind].
    rewrite (item_in_range (texts self) idx [] Ht). cbn [bind].
    rewrite IH by assumption. rewrite <- app_assoc. simpl.
    do 3 f_equal. unfold entry. f_equal.
    destruct (Nat.ltb idx (length (metadata self))) eqn:Hm; [reflexivity|].
    apply Nat.ltb_ge in Hm. now rewrite (lookup_ge_None_2 _ _ Hm).
Qed.

Lemma argsort_in_range (similarities : list Q) (n : Z) :
  sorts argsort ->
  Forall (fun idx => (idx < length similarities)%nat)
         (slice_to (rev (argsort similarities)) n).
Proof.
  intros Hsort. destruct (Hsort similarities) as [Hperm _].
  unfold slice_to. apply Forall_take. apply List.Forall_rev.
  rewrite List.Forall_forall. intros idx Hidx.
  apply (Permutation_in _ Hperm) in Hidx. apply in_seq in Hidx. lia.
Qed.

Lemma ranked_length (self : t) (similarities : list Q) (k : Z) :
  0 <= k -> len (ranked self similarities k) <= k.
Proof.
  intros Hk. unfold ranked, len. rewrite length_map.
  pose proof (List.filter_length_le
                (fun idx => Nat.ltb idx (length (texts self)))
                (slice_to (rev (argsort similarities)) k)) as Hf.
  unfold slice_to in *. rewrite length_take in Hf. unfold adjust in *.
  destruct (Z.ltb_spec k 0); lia.
Qed.

Lemma ranked_sorted (self : t) (similarities : list Q) (k : Z) :
  sorts argsort ->
  StronglySorted (fun a b => (score b <= score a)%Q) (ranked self similarities k).
Proof.
  intros Hsort. destruct (Hsort similarities) as [_ Hs].
  unfold ranked. apply StronglySorted_map, StronglySorted_filter.
  unfold slice_to. apply StronglySorted_take.
  exact (StronglySorted_rev _ _ Hs).
Qed.

Lemma ranked_all (self : t) (similarities : list Q) (k : Z) :
  sorts argsort ->
  length similarities = length (texts self) ->
  len (texts self) <= k ->
  ranked self similarities k =
  List.map (entry self similarities) (rev (argsort similarities)) /\
  Permutation (ranked self similarities k) (entries self similarities).
Proof.
  intros Hsort Hlen Hk. destruct (Hsort similarities) as [Hperm _].
  assert (Hn : length (rev (argsort similarities)) = length (texts self)).
  { rewrite length_rev, (Permutation_length Hperm), length_seq. exact Hlen. }
  assert (Heq : ranked self similarities k =
                List.map (entry self similarities) (rev (argsort similarities))).
  { unfold ranked, slice_to. f_equal.
    rewrite take_ge.
    2:{ unfold adjust, len in *. destruct (Z.ltb_spec k 0); lia. }
    apply List.forallb_filter_id. apply forallb_forall. intros idx Hidx.
    apply Nat.ltb_lt. apply in_rev in Hidx.
    apply (Permutation_in _ Hperm) in Hidx. apply in_seq in Hidx. lia. }
  split; [exact Heq|]. rewrite Heq. unfold entries.
  apply Permutation_map. rewrite <- Hlen, <- Hperm.
  symmetry. apply Permutation_rev.
Qed.

Lemma search_body_spec (self : t) (E : ndarray) (query : str) (k : Z) :
  sorts argsort ->
  (exists e : exn, search_body self E query k = Raised e) \/
  (exists (query_embedding : ndarray) (similarities : list Q)
          (more : list (list Q)),
      encode [query] = Returned query_embedding /\
      cosine_similarity query_embedding E = Returned (similarities :: more) /\
      search_body self E query k = Returned (ranked self similarities k)).
Proof.
  intros Hsort. unfold search_body.
  destruct (encode [query]) as [qe|e]; [|left; now exists e]. cbn [bind].
  destruct (cosine_similarity qe E) as [[|sims more]|e] eqn:Hcos;
    [left; now exists IndexError | | left; now exists e].
  cbn [bind item lookup list_lookup]. right. exists qe, sims, more.
  repeat split; [exact Hcos|].
  rewrite collect_spec by now apply argsort_in_range. reflexivity.
Qed.

(** *** The claims on [add_documents] and [search] *)

Lemma add_all_rows (calls : list (list str * option (list meta))) :
  one_row_per_text encode ->
  forall self : t,
    length (texts self) = n_embeddings self ->
    length (texts (add_all calls self)) = n_embeddings (add_all calls self).
Proof.
  intros Henc. induction calls as [|[ts md] calls IH]; intros self H;
    [exact H|].
  cbn [add_all fold_left fst snd]. apply IH. now apply add_documents_rows.
Qed.

(** C1, as amended. When [metadata] is left out ([None] or [[]]), a
    call that returns has appended one empty mapping per text; a
    non-empty [metadata] is appended as it is, so a short one is not
    filled up. After any sequence of calls
    [len(texts) == len(embeddings)], and [len(metadata)] equals them
    too when every call left the metadata out or gave as many entries
    as texts. *)
Theorem add_all_aligned (calls : list (list str * option (list meta)))
        (self : t) :
  one_row_per_text encode ->
  length (texts self) = n_embeddings self ->
  length (texts (add_all calls self)) = n_embeddings (add_all calls self) /\
  (length (metadata self) = length (texts self) ->
   Forall (fun c => fits (fst c) (snd c)) calls ->
   aligned (add_all calls self)) /\
  (forall (ts : list str) (md : option (list meta)),
      given md = None ->
      snd (add_documents ts md self) = Returned tt ->
      metadata (fst (add_documents ts md self)) =
      metadata self ++ replicate (length ts) ∅) /\
  (forall (ts : list str) (m : meta) (ms : list meta),
      ts <> [] ->
      snd (add_documents ts (Some (m :: ms)) self) = Returned tt ->
      metadata (fst (add_documents ts (Some (m :: ms)) self)) =
      metadata self ++ m :: ms).
Proof.
  intros Henc Hrows. split; [now apply add_all_rows|]. split; [|split].
  - intros Hmeta Hfit. assert (Hal : aligned self) by now split.
    clear Hrows Hmeta. revert self Hal.
    induction Hfit as [|[ts md] calls Hc _ IH]; intros self Hal; [exact Hal|].
    cbn [add_all fold_left fst snd]. apply IH.
    now apply add_documents_aligned.
  - intros ts md Hgiven Hret.
    destruct (add_documents_cases self ts md)
      as [[-> ->]|[[e' He]|(E & E' & _ & _ & _ & ->)]]; cbn.
    + now rewrite app_nil_r.
    + rewrite He in Hret. discriminate.
    + unfold appended. now rewrite Hgiven.
  - intros ts m ms Hne Hret.
    destruct (add_documents_cases self ts (Some (m :: ms)))
      as [[-> _]|[[e' He]|(E & E' & _ & _ & _ & ->)]]; cbn.
    + congruence.
    + rewrite He in Hret. discriminate.
    + reflexivity.
Qed.

(** C8. If the embedding call of [add_documents] raises, the call
    raises the same exception and the store is exactly what it was. *)
Theorem add_documents_encode_failure (self : t) (texts : list str)
        (metadata : option (list meta)) (e : exn) :
  texts <> [] ->
  encode texts = Raised e ->
  add_documents texts metadata self = (self, Raised e).
Proof.
  intros Hne Henc. unfold add_documents, try_except, seq_, call, reraise.
  destruct texts as [|x texts]; [congruence|]. cbn [truthy negb].
  now rewrite Henc.
Qed.

(** C3, as amended. For [k >= 0], [search] returns at most [k]
    results; for every [k] the results are in descending order of
    score; a store that never received a chunk gives the empty list;
    and when the query was embedded and scored and [k] is at least the
    number of chunks, the results are all chunks, ranked. (A negative
    [k] is a slice bound that counts from the end, so [search] then
    returns all but the last [-k] of the ranking.) *)
Theorem search_top_k (self : t) (query : str) (k : Z) :
  sorts argsort ->
  exists results : list hit,
    search self query k = Returned results /\
    (0 <= k -> len results <= k) /\
    StronglySorted (fun a b => (score b <= score a)%Q) results /\
    (embeddings self = None \/ texts self = [] -> results = []) /\
    (forall (E query_embedding : ndarray) (similarities : list Q)
            (more : list (list Q)),
        embeddings self = Some E ->
        texts self <> [] ->
        encode [query] = Returned query_embedding ->
        cosine_similarity query_embedding E = Returned (similarities :: more) ->
        length similarities = length (texts self) ->
        len (texts self) <= k ->
        results = List.map (entry self similarities) (rev (argsort similarities)) /\
        Permutation results (entries self similarities)).
Proof.
  intros Hsort.
  assert (Hnil : (0 <= k -> len (@nil hit) <= k) /\
                 StronglySorted (fun a b => (score b <= score a)%Q) (@nil hit)).
  { split; [intros; unfold len; simpl; lia | constructor]. }
  destruct Hnil as [Hnil_len Hnil_sorted]. unfold search.
  destruct (embeddings self) as [E|] eqn:Hemb.
  2:{ exists []. split; [reflexivity|]. split; [assumption|].
      split; [assumption|]. split; [reflexivity|]. intros; congruence. }
  destruct (texts self) as [|t0 ts] eqn:Htexts.
  { exists []. split; [reflexivity|]. split; [assumption|].
    split; [assumption|]. split; [reflexivity|]. intros; congruence. }
  replace (len (t0 :: ts) =? 0) with false by (unfold len; simpl; lia).
  rewrite <- Htexts.
  destruct (search_body_spec self E query k Hsort)
    as [[e He]|(qe & sims & more & Hq & Hcos & Hbody)].
  - rewrite He. exists []. split; [reflexivity|]. split; [assumption|].
    split; [assumption|]. split; [reflexivity|].
    intros E' qe sims more HE' _ Hq Hcos. injection HE' as <-.
    unfold search_body in He. rewrite Hq in He. cbn [bind] in He.
    rewrite Hcos in He. cbn [bind item lookup list_lookup] in He.
    rewrite collect_spec in He by now apply argsort_in_range. discriminate.
  - rewrite Hbody. exists (ranked self sims k).
    split; [reflexivity|]. split; [now apply ranked_length|].
    split; [now apply ranked_sorted|]. split.
    + intros [?|?]; congruence.
    + intros E' qe' sims' more' HE' _ Hq' Hcos' Hlen Hk.
      injection HE' as <-. rewrite Hq in Hq'. injection Hq' as <-.
      rewrite Hcos in Hcos'. injection Hcos' as <- <-.
      now apply ranked_all.
Qed.

End WithServices.

Lemma toy_one_row_per_text : one_row_per_text (@encode toy).
Proof. intros ts E [= <-]. cbn. apply length_map. Qed.

Lemma add_all_aligned_witness :
  aligned (@add_all toy
             [([lit "a"; lit "b"], None);
              ([lit "c"], Some [{[ "page" := VInt 2 ]}])]
             init).
Proof.
  apply (@add_all_aligned toy
           [([lit "a"; lit "b"], None);
            ([lit "c"], Some [{[ "page" := VInt 2 ]}])] init).
  - exact toy_one_row_per_text.
  - reflexivity.
  - reflexivity.
  - apply List.Forall_cons; [left; reflexivity|].
    apply List.Forall_cons; [right; eexists; split; reflexivity|].
    apply List.Forall_nil.
Defined.

(** C1 as it was stated fails: one entry of metadata for two texts
    stays one entry. *)
Lemma add_documents_short_metadata_not_padded :
  one_row_per_text (@encode toy) /\
  (let self :=
     fst (@add_documents toy [lit "a"; lit "b"]
            (Some [{[ "page" := VInt 1 ]}]) init) in
   length (texts self) = 2%nat /\ n_embeddings self = 2%nat /\
   length (metadata self) = 1%nat /\ ~ aligned self).
Proof.
  split; [exact toy_one_row_per_text|]. cbn.
  repeat split. intros [_ H]. discriminate H.
Qed.

Lemma add_documents_encode_failure_witness :
  @add_documents down [lit "a"] None three_chunks =
  (three_chunks, Raised (RuntimeError "model unavailable")).
Proof.
  apply (@add_documents_encode_failure down three_chunks [lit "a"] None).
  - discriminate.
  - reflexivity.
Defined.

Lemma search_top_k_witness :
  exists results : list hit,
    @search toy three_chunks (lit "waiting period") 5 = Returned results /\
    len results <= 5 /\
    StronglySorted (fun a b => (score b <= score a)%Q) results /\
    Permutation results (entries three_chunks [323; 309; 155]%Q).
Proof.
  destruct (@search_top_k toy three_chunks (lit "waiting period") 5
              insertion_argsort_sorts)
    as (results & Hs & Hlen & Hsorted & _ & Hall).
  exists results. split; [exact Hs|]. split; [apply Hlen; lia|].
  split; [exact Hsorted|].
  eapply Hall.
  - reflexivity.
  - discriminate.
  - reflexivity.
  - vm_compute. reflexivity.
  - reflexivity.
  - vm_compute. discriminate.
Defined.

(** C3 as it was stated fails for a negative [k]: two results are more
    than [-1]. *)
Lemma search_negative_k_returns_more :
  exists results : list hit,
    @search toy three_chunks (lit "waiting period") (-1) = Returned results /\
    len results = 2 /\ ~ len results <= -1.
Proof.
  eexists. split; [vm_compute; reflexivity|]. split; [reflexivity|].
  vm_compute. intros H. now apply H.
Qed.

End VectorIndex.

(** ** The clause matcher *)
Module Matcher.
Import Py PyFacts ClauseMatcher.

(** *** The regular-expression engine *)

(** A match hands to its continuation a suffix of the text. *)
Lemma star_loop_suffix (body : str -> (str -> option str) -> option str)
      (k : str -> option str) :
  (forall (s : str) (c : str -> option str) (x : str),
      body s c = Some x -> exists s' : str, s' `suffix_of` s /\ c s' = Some x) ->
  forall (n : nat) (s x : str),
    star_loop body k n s = Some x ->
    exists s' : str, s' `suffix_of` s /\ k s' = Some x.
Proof.
  intros Hbody. induction n as [|n IH]; intros s x H; cbn [star_loop] in H.
  - now exists s.
  - destruct (body s _) as [rest|] eqn:E.
    + injection H as ->. apply Hbody in E as (s1 & Hs1 & Hk).
      destruct (Nat.ltb (length s1) (length s)); [|discriminate].
      apply IH in Hk as (s2 & Hs2 & Hk). exists s2.
      split; [now transitivity s1 | exact Hk].
    + now exists s.
Qed.

Lemma re_match_suffix (r : regex) :
  forall (s : str) (k : str -> option str) (x : str),
    re_match r s k = Some x ->
    exists s' : str, s' `suffix_of` s /\ k s' = Some x.
Proof.
  induction r as [|c|p|a IHa b IHb|a IHa b IHb|a IHa|a IHa];
    intros s k x H; cbn [re_match] in H.
  - now exists s.
  - destruct s as [|y s]; [discriminate|].
    destruct (N.eqb y c); [|discriminate].
    exists s. split; [apply suffix_cons_r; reflexivity | exact H].
  - destruct s as [|y s]; [discriminate|].
    destruct (p y); [|discriminate].
    exists s. split; [apply suffix_cons_r; reflexivity | exact H].
  - apply IHa in H as (s1 & Hs1 & H). apply IHb in H as (s2 & Hs2 & H).
    exists s2. split; [now transitivity s1 | exact H].
  - destruct (re_match a s k) as [rest|] eqn:E.
    + injection H as ->. now apply IHa in E.
    + now apply IHb in H.
  - destruct (re_match a s k) as [rest|] eqn:E.
    + injection H as ->. now apply IHa in E.
    + now exists s.
  - now apply (star_loop_suffix (re_match a) k IHa) in H.
Qed.

(** A match takes at least [min_len] characters. *)
Lemma star_loop_consumes (body : str -> (str -> option str) -> option str)
      (k : str -> option str) :
  (forall (s : str) (c : str -> option str) (x : str),
      body s c = Some x ->
      exists s' : str, (length s' <= length s)%nat /\ c s' = Some x) ->
  forall (n : nat) (s x : str),
    star_loop body k n s = Some x ->
    exists s' : str, (length s' <= length s)%nat /\ k s' = Some x.
Proof.
  intros Hbody. induction n as [|n IH]; intros s x H; cbn [star_loop] in H.
  - now exists s.
  - destruct (body s _) as [rest|] eqn:E.
    + injection H as ->. apply Hbody in E as (s1 & Hs1 & Hk).
      destruct (Nat.ltb (length s1) (length s)); [|discriminate].
      apply IH in Hk as (s2 & Hs2 & Hk). exists s2. split; [lia | exact Hk].
    + now exists s.
Qed.

Lemma re_match_consumes (r : regex) :
  forall (s : str) (k : str -> option str) (x : str),
    re_match r s k = Some x ->
    exists s' : str,
      (length s' + min_len r <= length s)%nat /\ k s' = Some x.
Proof.
  induction r as [|c|p|a IHa b IHb|a IHa b IHb|a IHa|a IHa];
    intros s k x H; cbn [re_match] in H; cbn [min_len].
  - exists s. split; [lia | exact H].
  - destruct s as [|y s]; [discriminate|].
    destruct (N.eqb y c); [|discriminate].
    exists s. split; [simpl; lia | exact H].
  - destruct s as [|y s]; [discriminate|].
    destruct (p y); [|discriminate].
    exists s. split; [simpl; lia | exact H].
  - apply IHa in H as (s1 & Hs1 & H). apply IHb in H as (s2 & Hs2 & H).
    exists s2. split; [lia | exact H].
  - destruct (re_match a s k) as [rest|] eqn:E.
    + injection H as ->. apply IHa in E as (s1 & Hs1 & E).
      exists s1. split; [lia | exact E].
    + apply IHb in H as (s1 & Hs1 & H). exists s1. split; [lia | exact H].
  - destruct (re_match a s k) as [rest|] eqn:E.
    + injection H as ->. apply IHa in E as (s1 & Hs1 & E).
      exists s1. split; [lia | exact E].
    + exists s. split; [lia | exact H].
  - apply (star_loop_consumes (re_match a) k) in H.
    + destruct H as (s1 & Hs1 & H). exists s1. split; [lia | exact H].
    + intros s0 c x0 H0. apply IHa in H0 as (s1 & Hs1 & H0).
      exists s1. split; [lia | exact H0].
Qed.

(** A pattern that cannot match the empty string lists no empty
    match, so the scan never takes its empty-match branch. *)
Lemma scan_nonempty (r : regex) :
  (0 < min_len r)%nat ->
  forall (fuel : nat) (s : str), Forall (fun m => m <> []) (scan fuel r s).
Proof.
  intros Hr. induction fuel as [|fuel IH]; intros s; [constructor|].
  cbn [scan]. unfold match_here.
  destruct (re_match r s Some) as [rest|] eqn:E.
  - apply re_match_consumes in E as (s' & Hlen & [= ->]).
    destruct (take (length s - length rest) s) as [|y m] eqn:Ht.
    + apply (f_equal (@length N)) in Ht. rewrite length_take in Ht.
      simpl in Ht. lia.
    + constructor; [discriminate | apply IH].
  - destruct s as [|y s]; [constructor | apply IH].
Qed.

Lemma Forall_suffix_of {A : Type} (P : A -> Prop) (l1 l2 : list A) :
  l1 `suffix_of` l2 -> Forall P l2 -> Forall P l1.
Proof. intros [k ->] H. now apply Forall_app in H as [_ H]. Qed.

(** Patterns that are alike match alike on a text of such characters. *)
Lemma star_loop_alike (chars : N -> Prop)
      (body body' : str -> (str -> option str) -> option str)
      (k k' : str -> option str) :
  (forall (s : str) (c c' : str -> option str),
      Forall chars s ->
      (forall s' : str, Forall chars s' -> c s' = c' s') ->
      body s c = body' s c') ->
  (forall s' : str, Forall chars s' -> k s' = k' s') ->
  forall (n : nat) (s : str),
    Forall chars s -> star_loop body k n s = star_loop body' k' n s.
Proof.
  intros Hbody Hk. induction n as [|n IH]; intros s Hs; cbn [star_loop].
  - now apply Hk.
  - rewrite (Hbody s _
               (fun s' => if Nat.ltb (length s') (length s)
                          then star_loop body' k' n s' else None) Hs).
    + now rewrite (Hk s Hs).
    + intros s' Hs'. destruct (Nat.ltb (length s') (length s));
        [now apply IH | reflexivity].
Qed.

Lemma re_match_alike (chars : N -> Prop) (r r' : regex) :
  alike chars r r' ->
  forall (s : str) (k k' : str -> option str),
    Forall chars s ->
    (forall s' : str, Forall chars s' -> k s' = k' s') ->
    re_match r s k = re_match r' s k'.
Proof.
  induction 1 as [|c|p q Hpq|a a' b b' _ IHa _ IHb|a a' b b' _ IHa _ IHb
                  |a a' _ IHa|a a' _ IHa];
    intros s k k' Hs Hk; cbn [re_match].
  - now apply Hk.
  - destruct s as [|y s]; [reflexivity|]. inversion Hs; subst.
    destruct (N.eqb y c); [now apply Hk | reflexivity].
  - destruct s as [|y s]; [reflexivity|]. inversion Hs; subst.
    rewrite (Hpq y) by assumption.
    destruct (q y); [now apply Hk | reflexivity].
  - apply IHa; [assumption|]. intros s' Hs'. now apply IHb.
  - now rewrite (IHa s k k' Hs Hk), (IHb s k k' Hs Hk).
  - now rewrite (IHa s k k' Hs Hk), (Hk s Hs).
  - now apply (star_loop_alike chars).
Qed.

Lemma scan_alike (chars : N -> Prop) (r r' : regex) :
  alike chars r r' ->
  forall (fuel : nat) (s : str),
    Forall chars s -> scan fuel r s = scan fuel r' s.
Proof.
  intros Hr. induction fuel as [|fuel IH]; intros s Hs; [reflexivity|].
  cbn [scan]. unfold match_here.
  rewrite (re_match_alike chars r r' Hr s Some Some Hs) by reflexivity.
  assert (Htail : match s with
                  | [] => []
                  | _ :: s' => scan fuel r s'
                  end =
                  match s with
                  | [] => []
                  | _ :: s' => scan fuel r' s'
                  end).
  { destruct s as [|y s]; [reflexivity|]. inversion Hs; subst. now apply IH. }
  destruct (re_match r' s Some) as [rest|] eqn:E; [|exact Htail].
  apply re_match_suffix in E as (s' & Hsuf & [= ->]).
  destruct (take (length s - length rest) s); f_equal;
    [exact Htail | apply IH; now apply (Forall_suffix_of _ _ s)].
Qed.

Lemma findall_alike (chars : N -> Prop) (r r' : regex) (text : str) :
  alike chars r r' -> Forall chars text -> findall r text = findall r' text.
Proof. intros Hr Ht. unfold findall. now apply (scan_alike chars). Qed.

(** The key phrases of a text depend on the character database only
    through the digits among the characters of the text. *)
Lemma extract_key_phrases_database (U1 U2 : UnicodeData) (text : str) :
  Forall (fun c => @is_digit U1 c = @is_digit U2 c) text ->
  @_extract_key_phrases U1 text = @_extract_key_phrases U2 text.
Proof.
  intros H. unfold _extract_key_phrases.
  set (chars := fun c : N => @is_digit U1 c = @is_digit U2 c) in *.
  assert (Hmoney : alike chars (@money_pattern U1) (@money_pattern U2)).
  { unfold money_pattern, Plus, Word, digit, space, currency_sign_in_source.
    cbn [lit fold_right List.map list_ascii_of_string].
    repeat match goal with |- alike _ _ _ => constructor end;
    intros c Hc; unfold chars in Hc; rewrite ?Hc; reflexivity. }
  assert (Htime : alike chars (@time_pattern U1) (@time_pattern U2)).
  { unfold time_pattern, Plus, Word, digit, space.
    cbn [lit fold_right List.map list_ascii_of_string].
    repeat match goal with |- alike _ _ _ => constructor end;
    intros c Hc; unfold chars in Hc; rewrite ?Hc; reflexivity. }
  assert (Hpercent : alike chars (@percent_pattern U1) (@percent_pattern U2)).
  { unfold percent_pattern, Plus, digit.
    repeat match goal with |- alike _ _ _ => constructor end;
    intros c Hc; unfold chars in Hc; rewrite ?Hc; reflexivity. }
  now rewrite (findall_alike chars _ _ text Hmoney H),
    (findall_alike chars _ _ text Htime H),
    (findall_alike chars _ _ text Hpercent H).
Qed.

Section WithUnicode.
Context {U : UnicodeData}.

(** *** Classification *)

(** The [if]/[elif] chain is the rule table read from the top. *)
Lemma classify_clause_by_rules (text : str) :
  _classify_clause text = classify_by_rules text.
Proof. reflexivity. Qed.

Lemma any_in_member (w : str) (words : list str) (text_lower : str) :
  In w words -> contains w text_lower = true -> any_in words text_lower = true.
Proof.
  intros Hin Hc. unfold any_in. apply existsb_exists. now exists w.
Qed.

(** The coverage rule is the first one looked at. *)
Lemma classify_clause_cover (text : str) :
  contains (lit "cover") (lower text) = true -> _classify_clause text = coverage.
Proof.
  intros H. unfold _classify_clause.
  rewrite (any_in_member (lit "cover")); [reflexivity | now left | exact H].
Qed.

Lemma lower_ascii_text (text : str) :
  ascii text -> lower text = List.map ascii_lower text.
Proof.
  intros H. unfold lower.
  rewrite <- (app_nil_r text) at 1. rewrite (lower_from_ascii text [] [] H).
  apply app_nil_r.
Qed.

(** Two ASCII texts that differ in the case of letters only get one tag. *)
Lemma classify_clause_ascii_case (text text' : str) :
  ascii text -> ascii text' ->
  List.map ascii_lower text' = List.map ascii_lower text ->
  _classify_clause text' = _classify_clause text.
Proof.
  intros H H' Heq. unfold _classify_clause.
  now rewrite (lower_ascii_text text H), (lower_ascii_text text' H'), Heq.
Qed.

(** C4. [_classify_clause] is a function of the lower-cased text: the
    rules are tried in the order coverage, waiting_period, premium,
    exclusion, amount, and the first with a keyword in the text gives
    the tag, [general] if none has. A text that holds both "coverage"
    and "exclusion", in any mix of upper and lower case, is tagged
    [coverage]. *)
Theorem classify_clause_priority (text : str) :
  _classify_clause text = first_match rules (lower text) /\
  (forall text' : str,
      lower text' = lower text -> _classify_clause text' = _classify_clause text) /\
  (contains (lit "coverage") (lower text) = true ->
   contains (lit "exclusion") (lower text) = true ->
   _classify_clause text = coverage) /\
  (forall w1 w2 : str,
      List.map ascii_lower w1 = lit "coverage" ->
      List.map ascii_lower w2 = lit "exclusion" ->
      contains w1 text = true ->
      contains w2 text = true ->
      _classify_clause text = coverage).
Proof.
  split; [reflexivity|]. split.
  { intros text' H. unfold _classify_clause. now rewrite H. }
  assert (Hcov : contains (lit "coverage") (lower text) = true ->
                 _classify_clause text = coverage).
  { intros H. apply classify_clause_cover.
    apply (contains_trans _ (lit "coverage")); [reflexivity | exact H]. }
  split; [intros H _; now apply Hcov|].
  intros w1 w2 H1 _ Hc1 _. apply Hcov. rewrite <- H1.
  apply contains_lower; [|exact Hc1].
  apply (ascii_of_lower w1 (lit "coverage") H1).
  repeat constructor.
Qed.

(** C10. A text that holds "not covered", in any case, is tagged
    [coverage], never [exclusion]: it holds "cover", and the coverage
    rule is tried first. The keyword "not covered" of the exclusion
    rule can be struck out without changing any tag. *)
Theorem not_covered_is_coverage (text : str) :
  (contains (lit "not covered") (lower text) = true ->
   _classify_clause text = coverage /\ _classify_clause text <> exclusion) /\
  (forall w : str,
      List.map ascii_lower w = lit "not covered" ->
      contains w text = true ->
      _classify_clause text = coverage /\ _classify_clause text <> exclusion) /\
  _classify_clause text = first_match rules_without_not_covered (lower text).
Proof.
  assert (Hcov : contains (lit "not covered") (lower text) = true ->
                 contains (lit "cover") (lower text) = true).
  { apply contains_trans. reflexivity. }
  assert (Htag : contains (lit "not covered") (lower text) = true ->
                 _classify_clause text = coverage /\
                 _classify_clause text <> exclusion).
  { intros H. rewrite (classify_clause_cover text (Hcov H)).
    split; [reflexivity | discriminate]. }
  split; [exact Htag|]. split.
  - intros w Hw Hc. apply Htag. rewrite <- Hw.
    apply contains_lower; [|exact Hc].
    apply (ascii_of_lower w (lit "not covered") Hw). repeat constructor.
  - unfold _classify_clause.
    cbn [first_match rules_without_not_covered any_in existsb].
    destruct (contains (lit "not covered") (lower text)) eqn:Hnc;
      [|now rewrite !orb_false_r].
    now rewrite (Hcov eq_refl).
Qed.

(** *** Key phrases *)

(** The three scans, one after the other; nothing is removed. *)
Lemma extract_key_phrases_scans (text : str) :
  _extract_key_phrases text =
  findall money_pattern text ++ findall time_pattern text ++
  findall percent_pattern text.
Proof. unfold _extract_key_phrases. now rewrite app_nil_l, app_assoc. Qed.

Lemma extract_key_phrases_grace_period :
  _extract_key_phrases (lit "grace period is 30 days") = [lit "30 days"].
Proof. vm_compute. reflexivity. Qed.

Lemma extract_key_phrases_repeats :
  _extract_key_phrases (lit "5% now, 5% later, Rs. 1,000.00 or INR 1,000") =
  [lit "Rs. 1,000.00"; lit "INR 1,000"; lit "5%"; lit "5%"].
Proof. vm_compute. reflexivity. Qed.

(** No key phrase is empty. *)
Lemma extract_key_phrases_nonempty (text : str) :
  Forall (fun phrase => phrase <> []) (_extract_key_phrases text).
Proof.
  unfold _extract_key_phrases, findall. rewrite app_nil_l.
  repeat apply Forall_app_2; apply scan_nonempty; cbn; lia.
Qed.

(** C5, where the code fails it. The claim lists the rupee sign among
    the prefixes of the money scan, next to "Rs." and "INR". In the
    source the third prefix is the three code points U+00E2 U+201A
    U+00B9, so an amount written with the rupee sign (U+20B9, not a
    digit) is not extracted, while the same amount after "Rs." is. *)
Theorem extract_key_phrases_misses_rupee :
  decimal_other rupee = false ->
  _extract_key_phrases (rupee :: lit "500") = [] /\
  _extract_key_phrases (lit "Rs.500") = [lit "Rs.500"].
Proof.
  intros H. split; [|vm_compute; reflexivity].
  rewrite (extract_key_phrases_database U ascii_only).
  - vm_compute. reflexivity.
  - constructor; [exact H | repeat constructor].
Qed.

End WithUnicode.

Lemma classify_clause_priority_witness :
  @_classify_clause ascii_only (lit "EXCLUSION from Coverage: none") = coverage.
Proof.
  apply (proj2 (proj2 (proj2
           (@classify_clause_priority ascii_only
              (lit "EXCLUSION from Coverage: none"))))
           (lit "Coverage") (lit "EXCLUSION")); reflexivity.
Defined.

Lemma not_covered_is_coverage_witness :
  @_classify_clause ascii_only (lit "Dental care is NOT COVERED.") = coverage.
Proof.
  apply (proj1 (proj2 (@not_covered_is_coverage ascii_only
                         (lit "Dental care is NOT COVERED.")))
           (lit "NOT COVERED")); reflexivity.
Defined.

Lemma extract_key_phrases_misses_rupee_witness :
  @_extract_key_phrases ascii_only (rupee :: lit "500") = [].
Proof.
  apply (@extract_key_phrases_misses_rupee ascii_only). reflexivity.
Defined.

(** The three code points of the source do work as a prefix. *)
Lemma extract_key_phrases_source_prefix :
  @_extract_key_phrases ascii_only ([226; 8218; 185]%N ++ lit "500") =
  [[226; 8218; 185]%N ++ lit "500"].
Proof. vm_compute. reflexivity. Qed.

(** *** Failures of one question *)

Section Failures.
Context {U : UnicodeData} {S : VectorStore.Services}.

Lemma search_no_raise (self : VectorStore.t) (query : str) (k : Z) (e : exn) :
  VectorStore.search self query k <> Raised e.
Proof.
  unfold VectorStore.search.
  destruct (VectorStore.embeddings self); [|discriminate].
  destruct (len (VectorStore.texts self) =? 0); [discriminate|].
  destruct (VectorStore.search_body self n query k); discriminate.
Qed.

(** C9. [search] never raises: when the embedding of the query or the
    similarity computation raises, it returns the empty list. And
    [find_relevant_clauses] never raises: when the [search] of its
    vector store raises, it returns the empty list. *)
Theorem retrieval_failures_contained (self : VectorStore.t) (query : str)
        (k : Z) :
  (forall e : exn, VectorStore.search self query k <> Raised e) /\
  (forall e : exn,
      VectorStore.encode [query] = Raised e ->
      VectorStore.search self query k = Returned []) /\
  (forall (E query_embedding : VectorStore.ndarray) (e : exn),
      VectorStore.embeddings self = Some E ->
      VectorStore.encode [query] = Returned query_embedding ->
      VectorStore.cosine_similarity query_embedding E = Raised e ->
      VectorStore.search self query k = Returned []) /\
  (forall (vector_store_search : str -> Z -> result (list VectorStore.hit))
          (parsed_query : gmap string (list str)),
      (forall e : exn,
          find_relevant_clauses vector_store_search parsed_query k <> Raised e) /\
      (forall e : exn,
          vector_store_search (search_query parsed_query) k = Raised e ->
          find_relevant_clauses vector_store_search parsed_query k = Returned [])).
Proof.
  split; [apply search_no_raise|]. split; [|split].
  - intros e He. unfold VectorStore.search, VectorStore.search_body.
    destruct (VectorStore.embeddings self); [|reflexivity].
    destruct (len (VectorStore.texts self) =? 0); [reflexivity|].
    now rewrite He.
  - intros E qe e HE Hq Hcos.
    unfold VectorStore.search, VectorStore.search_body. rewrite HE.
    destruct (len (VectorStore.texts self) =? 0); [reflexivity|].
    rewrite Hq. cbn [VectorStore.bind]. now rewrite Hcos.
  - intros vs pq. unfold find_relevant_clauses. split.
    + intros e. destruct (vs (search_query pq) k); discriminate.
    + intros e He. now rewrite He.
Qed.

End Failures.

Lemma retrieval_failures_contained_witness :
  @VectorStore.search VectorStore.down VectorStore.three_chunks
    (lit "waiting period") 5 = Returned [] /\
  @VectorStore.search VectorStore.mismatched VectorStore.three_chunks
    (lit "waiting period") 5 = Returned [] /\
  @find_relevant_clauses ascii_only unavailable
    {[ "keywords" := [lit "waiting"; lit "period"] ]} 5 = Returned [].
Proof.
  split; [|split].
  - eapply (proj1 (proj2
      (@retrieval_failures_contained ascii_only VectorStore.down
         VectorStore.three_chunks (lit "waiting period") 5))).
    reflexivity.
  - eapply (proj1 (proj2 (proj2
      (@retrieval_failures_contained ascii_only VectorStore.mismatched
         VectorStore.three_chunks (lit "waiting period") 5)))).
    + reflexivity.
    + reflexivity.
    + reflexivity.
  - eapply (proj2 (proj2 (proj2 (proj2
      (@retrieval_failures_contained ascii_only VectorStore.toy
         VectorStore.three_chunks (lit "waiting period") 5)))
      unavailable {[ "keywords" := [lit "waiting"; lit "period"] ]})).
    reflexivity.
Defined.

End Matcher.

(* ===================================================================== *)
(** * Further properties of the code                                      *)
(* ===================================================================== *)

(** ** More facts about slices, [rfind] and [strip] *)
Module PyMore.
Import Py PyFacts Notions.

Lemma adjust_range (n i : Z) : 0 <= n -> 0 <= adjust n i <= n.
Proof. intros Hn. unfold adjust. destruct (Z.ltb_spec i 0); lia. Qed.

(** Two bounds that are no further apart than [d] stay so when they
    are adjusted, as long as the first is not the larger. *)
Lemma adjust_gap (n a b : Z) :
  0 <= n -> a <= b -> adjust n b - adjust n a <= b - a.
Proof.
  intros Hn Hab. unfold adjust.
  destruct (Z.ltb_spec a 0), (Z.ltb_spec b 0); lia.
Qed.

Lemma length_slice {A : Type} (l : list A) (a b : Z) :
  len (slice l a b) = Z.max 0 (adjust (len l) b - adjust (len l) a).
Proof.
  unfold slice, len. rewrite length_take, length_drop.
  pose proof (adjust_range (Z.of_nat (length l)) a ltac:(lia)).
  pose proof (adjust_range (Z.of_nat (length l)) b ltac:(lia)).
  lia.
Qed.

(** A slice is a contiguous piece of the list. *)
Lemma slice_infix {A : Type} (l : list A) (a b : Z) :
  exists p q : list A, l = p ++ slice l a b ++ q.
Proof.
  unfold slice.
  exists (take (Z.to_nat (adjust (len l) a)) l),
    (drop (Z.to_nat (adjust (len l) b - adjust (len l) a))
          (drop (Z.to_nat (adjust (len l) a)) l)).
  now rewrite !take_drop.
Qed.

Lemma rindex_bound (c : N) (w : str) (j : nat) :
  rindex c w = Some j -> (j < length w)%nat.
Proof.
  revert j. induction w as [|x w IH]; intros j H; simpl in H; [discriminate|].
  destruct (rindex c w) as [j'|].
  - injection H as <-. specialize (IH j' eq_refl). simpl. lia.
  - destruct (N.eqb x c); [|discriminate]. injection H as <-. simpl. lia.
Qed.

Lemma rindex_none (c : N) (w : str) :
  Forall (fun x => x <> c) w -> rindex c w = None.
Proof.
  induction 1 as [|x w Hx _ IH]; simpl; [reflexivity|].
  rewrite IH. now rewrite (proj2 (N.eqb_neq x c) Hx).
Qed.

(** [rfind] answers [-1] or an index inside the adjusted window. *)
Lemma rfind_range (s : str) (c : N) (a b : Z) :
  rfind s c a b = -1 \/
  adjust (len s) a <= rfind s c a b < adjust (len s) b.
Proof.
  unfold rfind.
  destruct (rindex c _) as [j|] eqn:E; [right | now left].
  apply rindex_bound in E. rewrite length_take, length_drop in E.
  pose proof (adjust_range (len s) a ltac:(unfold len; lia)).
  unfold len in *. lia.
Qed.

(** A text without the character has no place for [rfind] to report. *)
Lemma rfind_absent (s : str) (c : N) (a b : Z) :
  Forall (fun x => x <> c) s -> rfind s c a b = -1.
Proof.
  intros H. unfold rfind. rewrite rindex_none; [reflexivity|].
  now apply Forall_take, Forall_drop.
Qed.

Lemma lstrip_suffix (s : str) : exists p : str, s = p ++ lstrip s.
Proof.
  induction s as [|c s [p Hp]]; simpl; [now exists []|].
  destruct (is_space c); [|now exists []].
  exists (c :: p). simpl. now rewrite <- Hp.
Qed.

Lemma rstrip_prefix (s : str) : exists q : str, s = rstrip s ++ q.
Proof.
  unfold rstrip. destruct (lstrip_suffix (rev s)) as [p Hp].
  exists (rev p). rewrite <- rev_app_distr, <- Hp. now rewrite rev_involutive.
Qed.

(** The trimmed text is a contiguous piece of the text. *)
Lemma strip_infix (s : str) : exists p q : str, s = p ++ strip s ++ q.
Proof.
  unfold strip. destruct (lstrip_suffix s) as [p Hp].
  destruct (rstrip_prefix (lstrip s)) as [q Hq].
  exists p, q. now rewrite <- Hq.
Qed.

Lemma length_strip (s : str) : (length (strip s) <= length s)%nat.
Proof.
  destruct (strip_infix s) as (p & q & H).
  apply (f_equal (@length N)) in H. rewrite !length_app in H. lia.
Qed.

Lemma lstrip_starts_solid (s : str) : starts_solid (lstrip s).
Proof.
  induction s as [|c s IH]; simpl; [exact I|].
  destruct (is_space c) eqn:E; [exact IH | exact E].
Qed.

Lemma lstrip_fixed (s : str) : starts_solid s -> lstrip s = s.
Proof. destruct s as [|c s]; simpl; [reflexivity|]. now intros ->. Qed.

Lemma lstrip_keeps_last (u : str) (c : N) :
  is_space c = false -> exists v : str, lstrip (u ++ [c]) = v ++ [c].
Proof.
  intros Hc. induction u as [|x u [v Hv]]; simpl.
  - rewrite Hc. now exists [].
  - destruct (is_space x); [now exists v | now exists (x :: u)].
Qed.

Lemma rstrip_starts_solid (s : str) : starts_solid s -> starts_solid (rstrip s).
Proof.
  destruct s as [|c s]; [intros _; exact I|]. simpl. intros Hc.
  unfold rstrip. simpl.
  destruct (lstrip_keeps_last (rev s) c Hc) as [v ->].
  rewrite rev_app_distr. simpl. exact Hc.
Qed.

Lemma rstrip_idempotent (s : str) : rstrip (rstrip s) = rstrip s.
Proof.
  unfold rstrip. rewrite rev_involutive.
  now rewrite (lstrip_fixed _ (lstrip_starts_solid (rev s))).
Qed.

(** Trimming a trimmed text changes nothing. *)
Lemma strip_idempotent (s : str) : strip (strip s) = strip s.
Proof.
  unfold strip at 1.
  rewrite (lstrip_fixed (strip s)).
  - unfold strip. apply rstrip_idempotent.
  - unfold strip. apply rstrip_starts_solid, lstrip_starts_solid.
Qed.

(** Containment from a decomposition. *)
Lemma contains_infix (sub s : str) :
  (exists p q : str, s = p ++ sub ++ q) -> contains sub s = true.
Proof. intros (p & q & ->). apply contains_app. Qed.

Lemma infix_trans (x y z : str) :
  (exists p q : str, y = p ++ x ++ q) ->
  (exists p q : str, z = p ++ y ++ q) ->
  exists p q : str, z = p ++ x ++ q.
Proof.
  intros (p & q & ->) (p' & q' & ->). exists (p' ++ p), (q ++ q').
  now rewrite <- !app_assoc.
Qed.

End PyMore.

(** ** More on the chunker *)
Module ChunkerMore.
Import Py PyFacts Notions PyMore DocumentLoader Chunker.

(** Whatever the loop returns was in [chunks] or came out of a window
    as a non-empty chunk. *)
Lemma chunk_loop_collects (P : str -> Prop) (text : str)
      (chunk_size overlap : Z) :
  (forall start : Z,
      snd (window text chunk_size start) <> [] ->
      P (snd (window text chunk_size start))) ->
  forall (fuel : nat) (start : Z) (chunks out : list str),
    Forall P chunks ->
    chunk_loop fuel text chunk_size overlap start chunks = Some (Returned out) ->
    Forall P out.
Proof.
  intros Hw. induction fuel as [|fuel IH]; intros start chunks out Hc H;
    [discriminate|].
  cbn [chunk_loop] in H.
  destruct (start <? len text); [|congruence].
  specialize (Hw start).
  destruct (window text chunk_size start) as [end_ chunk]. cbn [snd] in Hw.
  assert (Hk : Forall P (keep chunks chunk)).
  { unfold keep. destruct chunk as [|x chunk]; cbn [truthy]; [exact Hc|].
    apply Forall_app. split; [exact Hc|].
    constructor; [now apply Hw | constructor]. }
  destruct (end_ >=? len text); [congruence|]. eapply IH; eassumption.
Qed.

(** No window gives a chunk longer than [chunk_size]. *)
Lemma window_bound (text : str) (chunk_size start : Z) :
  0 <= chunk_size -> len (snd (window text chunk_size start)) <= chunk_size.
Proof.
  intros Hsize. unfold window. cbn [snd].
  set (n := len text). assert (Hn : 0 <= n) by (unfold n, len; lia).
  pose proof (rfind_range text period start (start + chunk_size)) as Hr.
  pose proof (adjust_gap n start (start + chunk_size) Hn ltac:(lia)) as Hgap.
  pose proof (adjust_range n start Hn) as Hs.
  pose proof (adjust_range n (start + chunk_size) Hn) as He.
  fold n in Hr.
  match goal with
  | |- len (strip (slice text start ?e)) <= _ =>
      pose proof (length_strip (slice text start e)) as Hstrip;
      pose proof (length_slice text start e) as Hslice
  end.
  fold n in Hslice. unfold len in Hstrip, Hslice |- *.
  destruct (start + chunk_size <? n) eqn:E1.
  - destruct (rfind text period start (start + chunk_size) >? start) eqn:E2.
    + apply Z.gtb_lt in E2.
      destruct Hr as [Hr|Hr].
      * rewrite Hr in *. change (-1 + 1) with 0 in *.
        unfold adjust in Hslice at 1. simpl in Hslice. lia.
      * assert (Ha : adjust n (rfind text period start (start + chunk_size) + 1)
                     = rfind text period start (start + chunk_size) + 1).
        { unfold adjust.
          destruct (Z.ltb_spec
                      (rfind text period start (start + chunk_size) + 1) 0);
            lia. }
        rewrite Ha in Hslice. lia.
    + lia.
  - lia.
Qed.

(** X1. With [chunk_size >= 0] every chunk that [chunk_text] returns
    has at most [chunk_size] characters, whatever the overlap. *)
Theorem chunk_text_chunk_bound (fuel : nat) (text : str)
        (chunk_size overlap : Z) (chunks : list str) :
  0 <= chunk_size ->
  chunk_text fuel text chunk_size overlap = Some (Returned chunks) ->
  Forall (fun c => len c <= chunk_size) chunks.
Proof.
  intros Hsize. unfold chunk_text.
  destruct (Z.leb_spec (len text) chunk_size) as [Hle|Hgt].
  - intros [= <-]. now constructor.
  - apply chunk_loop_collects; [|constructor].
    intros start _. now apply window_bound.
Qed.

Lemma chunk_text_chunk_bound_witness :
  Forall (fun c : str => len c <= 12)
         [lit "First one."; lit "Second one."; lit "Third."].
Proof.
  apply (chunk_text_chunk_bound 5 (lit "First one. Second one. Third.") 12 0).
  - lia.
  - vm_compute. reflexivity.
Defined.

(** X2. Every chunk of a text longer than [chunk_size] is a contiguous
    piece of the text and has no white space at either end. *)
Theorem chunk_text_chunks_are_trimmed_pieces (fuel : nat) (text : str)
        (chunk_size overlap : Z) (chunks : list str) :
  chunk_size < len text ->
  chunk_text fuel text chunk_size overlap = Some (Returned chunks) ->
  Forall (fun c => piece_of c text /\ strip c = c) chunks.
Proof.
  intros Hlong. unfold chunk_text.
  rewrite (proj2 (Z.leb_gt _ _) Hlong).
  apply chunk_loop_collects; [|constructor].
  intros start _. unfold window. cbn [snd]. split.
  - unfold piece_of. eapply infix_trans; [apply strip_infix|].
    apply slice_infix.
  - apply strip_idempotent.
Qed.

Lemma chunk_text_chunks_are_trimmed_pieces_witness :
  Forall (fun c : str =>
            piece_of c (lit "First one. Second one. Third.") /\ strip c = c)
         [lit "First one."; lit "Second one."; lit "Third."].
Proof.
  apply (chunk_text_chunks_are_trimmed_pieces 5
           (lit "First one. Second one. Third.") 12 0).
  - vm_compute. reflexivity.
  - vm_compute. reflexivity.
Defined.

(** The loop ends when some property of [start] is kept from turn to
    turn and makes each next start larger. *)
Lemma chunk_loop_returns_by (I : Z -> Prop) (text : str)
      (chunk_size overlap : Z) :
  (forall start : Z,
      I start -> start < len text ->
      fst (window text chunk_size start) < len text ->
      start < fst (window text chunk_size start) - overlap /\
      I (fst (window text chunk_size start) - overlap)) ->
  forall (fuel : nat) (start : Z) (chunks : list str),
    I start ->
    Z.max 0 (len text - start) < Z.of_nat fuel ->
    exists out : list str,
      chunk_loop fuel text chunk_size overlap start chunks = Some (Returned out).
Proof.
  intros Hstep. induction fuel as [|fuel IH]; intros start chunks HI Hfuel;
    [lia|].
  cbn [chunk_loop]. destruct (Z.ltb_spec start (len text)); [|eauto].
  specialize (Hstep start HI H).
  destruct (window text chunk_size start) as [end_ chunk]. cbn [fst] in Hstep.
  destruct (Z.geb_spec end_ (len text)); [eauto|].
  destruct (Hstep ltac:(lia)) as [Hadv HI']. apply IH; [exact HI' | lia].
Qed.

(** X4. On a text without a full stop, with [0 <= overlap < chunk_size],
    [chunk_text] returns, within one turn of the loop per character. *)
Theorem chunk_text_returns_without_full_stop (text : str)
        (chunk_size overlap : Z) :
  Forall (fun c => c <> period) text ->
  0 <= overlap < chunk_size ->
  exists chunks : list str,
    chunk_text (S (length text)) text chunk_size overlap =
    Some (Returned chunks).
Proof.
  intros Hdot Hov. unfold chunk_text.
  destruct (len text <=? chunk_size); [eauto|].
  apply (chunk_loop_returns_by (fun start => 0 <= start));
    [|lia|unfold len; lia].
  intros start Hstart _ _. unfold window. cbn [fst].
  rewrite (rfind_absent text period _ _ Hdot).
  destruct (start + chunk_size <? len text);
    [destruct (Z.gtb_spec (-1) start)|]; lia.
Qed.

Lemma chunk_text_returns_without_full_stop_witness :
  exists chunks : list str,
    chunk_text 27 (lit "abcdefghijklmnopqrstuvwxyz") 10 3 = Some (Returned chunks).
Proof.
  apply (chunk_text_returns_without_full_stop
           (lit "abcdefghijklmnopqrstuvwxyz") 10 3).
  - repeat (constructor; [discriminate|]). constructor.
  - lia.
Defined.

(** X3. With [chunk_size > 0] and [overlap <= 0], [chunk_text] returns
    on every text: the start index moves forward by at least one
    character in each turn of the loop, so any number of turns above the
    length of the text is enough. *)
Theorem chunk_text_returns_nonpositive_overlap (fuel : nat) (text : str)
        (chunk_size overlap : Z) :
  0 < chunk_size ->
  overlap <= 0 ->
  (length text < fuel)%nat ->
  exists chunks : list str,
    chunk_text fuel text chunk_size overlap = Some (Returned chunks).
Proof.
  intros Hsize Hov Hfuel. unfold chunk_text.
  destruct (len text <=? chunk_size); [eauto|].
  apply chunk_loop_returns; try assumption. unfold len. lia.
Qed.

Lemma chunk_text_returns_nonpositive_overlap_witness :
  exists chunks : list str,
    chunk_text 40 (lit "First one. Second one. Third.") 12 0 =
    Some (Returned chunks).
Proof.
  apply (chunk_text_returns_nonpositive_overlap
           40 (lit "First one. Second one. Third.") 12 0); cbn; lia.
Defined.

End ChunkerMore.

(** ** More on the vector index *)
Module VectorIndexMore.
Import Py PyFacts VectorStore VectorIndex.

Section WithServices.
Context {S : Services}.

(** What one call of [add_documents] does to the three attributes. *)
Lemma add_documents_effect (self : t) (texts : list str)
      (metadata : option (list meta)) :
  fst (add_documents texts metadata self) = self \/
  exists new_embeddings stacked : ndarray,
    texts <> [] /\
    encode texts = Returned new_embeddings /\
    (match embeddings self with
     | None => stacked = new_embeddings
     | Some old =>
         rows stacked = rows old ++ rows new_embeddings /\
         ncols stacked = ncols old
     end) /\
    fst (add_documents texts metadata self) =
    {| embeddings := Some stacked;
       VectorStore.texts := VectorStore.texts self ++ texts;
       VectorStore.metadata :=
         VectorStore.metadata self ++ appended texts metadata |}.
Proof.
  unfold add_documents, try_except, seq_, call, get, reraise, appended.
  destruct texts as [|x texts]; [now left|]. cbn [truthy negb].
  destruct (encode (x :: texts)) as [new_embeddings|e] eqn:Henc; [|now left].
  destruct (embeddings self) as [old|] eqn:Hemb.
  - unfold vstack. destruct (Nat.eqb (ncols old) (ncols new_embeddings));
      [|now left].
    right.
    exists new_embeddings,
      {| ncols := ncols old; rows := rows old ++ rows new_embeddings |}.
    split; [discriminate|].
    split; [reflexivity|]. split; [split; reflexivity|].
    cbn. destruct (given metadata); reflexivity.
  - right. exists new_embeddings, new_embeddings. split; [discriminate|].
    split; [reflexivity|]. split; [reflexivity|].
    cbn. destruct (given metadata); reflexivity.
Qed.

(** The embedding rows of a store, none before the first add. *)
Lemma add_documents_keeps (self : t) (texts : list str)
      (metadata : option (list meta)) :
  VectorStore.texts self `prefix_of`
    VectorStore.texts (fst (add_documents texts metadata self)) /\
  VectorStore.metadata self `prefix_of`
    VectorStore.metadata (fst (add_documents texts metadata self)) /\
  (forall E : ndarray,
      embeddings self = Some E ->
      exists E' : ndarray,
        embeddings (fst (add_documents texts metadata self)) = Some E' /\
        rows E `prefix_of` rows E' /\ ncols E' = ncols E).
Proof.
  destruct (add_documents_effect self texts metadata)
    as [->|(new & stacked & _ & _ & Hst & ->)].
  - repeat split; [reflexivity | reflexivity |]. intros E HE. now exists E.
  - cbn. split; [now apply prefix_app_r|]. split; [now apply prefix_app_r|].
    intros E HE. rewrite HE in Hst. destruct Hst as [Hrows Hcols].
    exists stacked. split; [reflexivity|]. split; [|exact Hcols].
    rewrite Hrows. now apply prefix_app_r.
Qed.

(** X5. The index is append-only: after any sequence of
    [add_documents] calls, raising ones included, the texts, the
    metadata and the embedding rows stored before are still there, at
    the same positions, and the row length of the embeddings is the
    same. *)
Theorem add_all_append_only (calls : list (list str * option (list meta)))
        (self : t) :
  texts self `prefix_of` texts (add_all calls self) /\
  metadata self `prefix_of` metadata (add_all calls self) /\
  (forall E : ndarray,
      embeddings self = Some E ->
      exists E' : ndarray,
        embeddings (add_all calls self) = Some E' /\
        rows E `prefix_of` rows E' /\ ncols E' = ncols E).
Proof.
  revert self. induction calls as [|[ts md] calls IH]; intros self.
  - repeat split; [reflexivity | reflexivity |]. intros E HE. now exists E.
  - cbn [add_all fold_left fst snd].
    destruct (add_documents_keeps self ts md) as (Ht & Hm & He).
    destruct (IH (fst (add_documents ts md self))) as (Ht' & Hm' & He').
    split; [now transitivity (texts (fst (add_documents ts md self)))|].
    split; [now transitivity (metadata (fst (add_documents ts md self)))|].
    intros E HE. destruct (He E HE) as (E1 & HE1 & Hr1 & Hc1).
    destruct (He' E1 HE1) as (E2 & HE2 & Hr2 & Hc2).
    exists E2. split; [exact HE2|].
    split; [now transitivity (rows E1) | congruence].
Qed.


(** X7. When the query was embedded and scored with one score per
    stored text, [search] with [k >= 0] returns exactly [min(k, n)]
    results for [n] stored texts. *)
Theorem search_count (self : t) (query : str) (k : Z)
        (E query_embedding : ndarray) (similarities : list Q)
        (more : list (list Q)) :
  sorts argsort ->
  embeddings self = Some E ->
  texts self <> [] ->
  encode [query] = Returned query_embedding ->
  cosine_similarity query_embedding E = Returned (similarities :: more) ->
  length similarities = length (texts self) ->
  0 <= k ->
  exists results : list hit,
    search self query k = Returned results /\
    len results = Z.min k (len (texts self)).
Proof.
  intros Hsort HE Hne Hq Hcos Hlen Hk.
  destruct (Hsort similarities) as [Hperm _].
  unfold search. rewrite HE.
  destruct (texts self) as [|t0 ts] eqn:Htexts; [congruence|].
  replace (len (t0 :: ts) =? 0) with false by (unfold len; simpl; lia).
  rewrite <- Htexts in *.
  unfold search_body. rewrite Hq. cbn [bind]. rewrite Hcos.
  cbn [bind item lookup list_lookup].
  rewrite collect_spec by now apply argsort_in_range.
  eexists. split; [reflexivity|]. cbn [app]. unfold len.
  rewrite length_map, List.forallb_filter_id.
  - unfold slice_to. rewrite length_take, length_rev,
      (Permutation_length Hperm), length_seq.
    unfold adjust, len. rewrite length_rev, (Permutation_length Hperm),
      length_seq, Hlen.
    destruct (Z.ltb_spec k 0); lia.
  - apply forallb_forall. intros idx Hidx. apply Nat.ltb_lt.
    unfold slice_to in Hidx. apply list_elem_of_In in Hidx.
    apply subseteq_take in Hidx. apply list_elem_of_In in Hidx.
    apply in_rev in Hidx.
    apply (Permutation_in _ Hperm) in Hidx. apply in_seq in Hidx. lia.
Qed.

End WithServices.


Lemma search_count_witness :
  exists results : list hit,
    @search toy three_chunks (lit "waiting period") 2 = Returned results /\
    len results = 2.
Proof.
  eapply (@search_count toy three_chunks (lit "waiting period") 2).
  - exact insertion_argsort_sorts.
  - reflexivity.
  - discriminate.
  - reflexivity.
  - vm_compute. reflexivity.
  - reflexivity.
  - lia.
Defined.

End VectorIndexMore.

(** ** More on the clause matcher *)
Module MatcherMore.
Import Py PyFacts Notions PyMore ClauseMatcher Matcher Patterns.

(** *** The engine against the language of a pattern *)

Lemma star_loop_sound (a : regex)
      (body : str -> (str -> option str) -> option str)
      (k : str -> option str) :
  (forall (s : str) (c : str -> option str) (x : str),
      body s c = Some x ->
      exists m s' : str, s = m ++ s' /\ lang a m /\ c s' = Some x) ->
  forall (n : nat) (s x : str),
    star_loop body k n s = Some x ->
    exists m s' : str, s = m ++ s' /\ lang (Star a) m /\ k s' = Some x.
Proof.
  intros Hbody. induction n as [|n IH]; intros s x H; cbn [star_loop] in H.
  - exists [], s. repeat split; [constructor | exact H].
  - destruct (body s _) as [rest|] eqn:E.
    + injection H as ->. apply Hbody in E as (m1 & s1 & -> & Hm1 & Hk).
      destruct (Nat.ltb (length s1) (length (m1 ++ s1))); [|discriminate].
      apply IH in Hk as (m2 & s2 & -> & Hm2 & Hk).
      exists (m1 ++ m2), s2. rewrite <- app_assoc.
      repeat split; [now constructor | exact Hk].
    + exists [], s. repeat split; [constructor | exact H].
Qed.

(** What a match takes from the text is in the language of the
    pattern. *)
Lemma re_match_sound (r : regex) :
  forall (s : str) (k : str -> option str) (x : str),
    re_match r s k = Some x ->
    exists m s' : str, s = m ++ s' /\ lang r m /\ k s' = Some x.
Proof.
  induction r as [|c|p|a IHa b IHb|a IHa b IHb|a IHa|a IHa];
    intros s k x H; cbn [re_match] in H.
  - exists [], s. repeat split; [constructor | exact H].
  - destruct s as [|y s]; [discriminate|].
    destruct (N.eqb_spec y c); [subst y|discriminate].
    exists [c], s. repeat split; [constructor | exact H].
  - destruct s as [|y s]; [discriminate|].
    destruct (p y) eqn:Hp; [|discriminate].
    exists [y], s. repeat split; [now constructor | exact H].
  - apply IHa in H as (m1 & s1 & -> & Hm1 & H).
    apply IHb in H as (m2 & s2 & -> & Hm2 & H).
    exists (m1 ++ m2), s2. rewrite <- app_assoc.
    repeat split; [now constructor | exact H].
  - destruct (re_match a s k) as [rest|] eqn:E.
    + injection H as ->. apply IHa in E as (m & s' & -> & Hm & E).
      exists m, s'. repeat split; [now apply lang_alt_l | exact E].
    + apply IHb in H as (m & s' & -> & Hm & H).
      exists m, s'. repeat split; [now apply lang_alt_r | exact H].
  - destruct (re_match a s k) as [rest|] eqn:E.
    + injection H as ->. apply IHa in E as (m & s' & -> & Hm & E).
      exists m, s'. repeat split; [now apply lang_opt_some | exact E].
    + exists [], s. repeat split; [constructor | exact H].
  - now apply (star_loop_sound a (re_match a) k IHa) in H.
Qed.

(** Every match that the scan lists is in the language of the pattern
    and is a contiguous piece of the text. *)
Lemma scan_sound (r : regex) :
  forall (fuel : nat) (s : str),
    Forall (fun m => lang r m /\ piece_of m s) (scan fuel r s).
Proof.
  induction fuel as [|fuel IH]; intros s; [constructor|].
  cbn [scan]. unfold match_here.
  assert (Htail : Forall (fun m => lang r m /\ piece_of m s)
                         match s with
                         | [] => []
                         | _ :: s' => scan fuel r s'
                         end).
  { destruct s as [|y s]; [constructor|].
    eapply List.Forall_impl; [|apply IH]. intros m [Hm (p & q & ->)].
    split; [exact Hm|]. now exists (y :: p), q. }
  destruct (re_match r s Some) as [rest|] eqn:E; [|exact Htail].
  apply re_match_sound in E as (m & s' & -> & Hm & [= ->]).
  rewrite length_app, Nat.add_sub, take_app_length.
  assert (Hpiece : piece_of m (m ++ rest)) by now exists [], rest.
  destruct m as [|c m].
  - constructor; [now split | exact Htail].
  - constructor; [now split|].
    eapply List.Forall_impl; [|apply IH]. intros m' [Hm' (p & q & ->)].
    split; [exact Hm'|]. exists ((c :: m) ++ p), q.
    now rewrite <- !app_assoc.
Qed.

Lemma findall_sound (r : regex) (text : str) :
  Forall (fun m => lang r m /\ piece_of m text) (findall r text).
Proof. apply scan_sound. Qed.

(** *** The shapes of the key phrases *)

Lemma lang_star_cls (p : N -> bool) (m : str) :
  lang (Star (Cls p)) m -> Forall (fun c => p c = true) m.
Proof.
  intros H. remember (Star (Cls p)) as r eqn:Er.
  induction H as [|c|p' c Hc|a b u v Hu IHu Hv IHv|a b u Hu IHu|a b u Hu IHu
                  |a|a u Hu IHu|a|a u v Hu IHu Hv IHv];
    try discriminate.
  - constructor.
  - injection Er as ->. inversion Hu; subst. simpl.
    constructor; [assumption | now apply IHv].
Qed.

Lemma lang_plus_cls (p : N -> bool) (m : str) :
  lang (Plus (Cls p)) m -> m <> [] /\ Forall (fun c => p c = true) m.
Proof.
  unfold Plus. intros H. inversion H as [| | |a b u v Hu Hv| | | | | |]; subst.
  inversion Hu; subst. apply lang_star_cls in Hv. simpl.
  split; [discriminate | now constructor].
Qed.

Lemma lang_chars (l m : str) :
  lang (fold_right (fun c r => Cat (Chr c) r) Eps l) m -> m = l.
Proof.
  revert m. induction l as [|c l IH]; intros m H; simpl in H.
  - now inversion H.
  - inversion H as [| | |a b u v Hu Hv| | | | | |]; subst.
    inversion Hu; subst. simpl. f_equal. now apply IH.
Qed.

Lemma lang_word (w : string) (m : str) : lang (Word w) m -> m = lit w.
Proof. apply lang_chars. Qed.

Lemma lang_opt_chr (c : N) (m : str) :
  lang (Opt (Chr c)) m -> m = [] \/ m = [c].
Proof.
  intros H. inversion H as [| | | | | |a|a u Hu| |]; subst; [now left|].
  inversion Hu; subst. now right.
Qed.

Section WithUnicode.
Context {U : UnicodeData}.

Lemma lang_time_pattern (m : str) : lang time_pattern m -> time_phrase m.
Proof.
  unfold time_pattern, digit, space. intros H.
  inversion H as [| | |a b ds v Hds Hv| | | | | |]; subst.
  inversion Hv as [| | |a b ws unit Hws Hunit| | | | | |]; subst.
  apply lang_plus_cls in Hds as [Hne Hds]. apply lang_star_cls in Hws.
  exists ds, ws, unit. repeat split; try assumption.
  inversion Hunit as [| | | |a b u Hday|a b u Hrest| | | |]; subst.
  - inversion Hday as [| | |a b w o Hw Ho| | | | | |]; subst.
    apply lang_word in Hw as ->.
    apply lang_opt_chr in Ho as [->| ->]; simpl; tauto.
  - inversion Hrest as [| | | |a b u Hmonth|a b u Hyear| | | |]; subst.
    + inversion Hmonth as [| | |a b w o Hw Ho| | | | | |]; subst.
      apply lang_word in Hw as ->.
      apply lang_opt_chr in Ho as [->| ->]; simpl; tauto.
    + inversion Hyear as [| | |a b w o Hw Ho| | | | | |]; subst.
      apply lang_word in Hw as ->.
      apply lang_opt_chr in Ho as [->| ->]; simpl; tauto.
Qed.

Lemma lang_percent_pattern (m : str) :
  lang percent_pattern m -> percent_phrase m.
Proof.
  unfold percent_pattern, digit. intros H.
  inversion H as [| | |a b ds v Hds Hv| | | | | |]; subst.
  inversion Hv as [| | |a b fraction sign Hfr Hsign| | | | | |]; subst.
  inversion Hsign; subst.
  apply lang_plus_cls in Hds as [Hne Hds].
  exists ds, fraction. repeat split; try assumption.
  inversion Hfr as [| | | | | |a|a u Hu| |]; subst; [now left|].
  inversion Hu as [| | |a b dot fs Hdot Hfs| | | | | |]; subst.
  inversion Hdot; subst. apply lang_plus_cls in Hfs as [Hfne Hfs].
  right. now exists fs.
Qed.

Lemma lang_money_pattern (m : str) : lang money_pattern m -> money_phrase m.
Proof.
  unfold money_pattern, digit, space, currency_sign_in_source. intros H.
  inversion H as [| | |a b prefix v Hprefix Hv| | | | | |]; subst.
  inversion Hv as [| | |a b ws v' Hws Hv'| | | | | |]; subst.
  inversion Hv' as [| | |a b number cents Hnumber Hcents| | | | | |]; subst.
  apply lang_star_cls in Hws. apply lang_plus_cls in Hnumber as [Hne Hnumber].
  exists prefix, ws, number, cents. split; [reflexivity|].
  split; [|split; [exact Hws|split; [exact Hne|split]]].
  - inversion Hprefix as [| | | |a b u Hrs|a b u Hrest| | | |]; subst.
    + inversion Hrs as [| | |a b w o Hw Ho| | | | | |]; subst.
      apply lang_word in Hw as ->.
      apply lang_opt_chr in Ho as [->| ->]; simpl; tauto.
    + inversion Hrest as [| | | |a b u Hinr|a b u Hsign| | | |]; subst.
      * apply lang_word in Hinr as ->. simpl; tauto.
      * inversion Hsign as [| | |a b c1 v1 Hc1 Hv1| | | | | |]; subst.
        inversion Hv1 as [| | |a b c2 c3 Hc2 Hc3| | | | | |]; subst.
        inversion Hc1; inversion Hc2; inversion Hc3; subst.
        simpl; tauto.
  - eapply List.Forall_impl; [|exact Hnumber]. intros c Hc. cbv beta in Hc.
    apply orb_true_iff in Hc as [Hc|Hc]; [now left|].
    right. now apply N.eqb_eq in Hc.
  - inversion Hcents as [| | | | | |a|a u Hu| |]; subst; [now left|].
    inversion Hu as [| | |a b dot dd Hdot Hdd| | | | | |]; subst.
    inversion Hdd as [| | |a b d1 d2 Hd1 Hd2| | | | | |]; subst.
    inversion Hdot; inversion Hd1; inversion Hd2; subst.
    right. eexists _, _. repeat split; eassumption.
Qed.

(** X8. The key phrases of a text are, in this order, money phrases,
    time phrases and percentage phrases, each of the shape of its
    pattern, and each a contiguous piece of the text as it is written
    there. *)
Theorem extract_key_phrases_shapes (text : str) :
  exists money time percent : list str,
    _extract_key_phrases text = money ++ time ++ percent /\
    Forall (fun m => money_phrase m /\ piece_of m text) money /\
    Forall (fun m => time_phrase m /\ piece_of m text) time /\
    Forall (fun m => percent_phrase m /\ piece_of m text) percent.
Proof.
  exists (findall money_pattern text), (findall time_pattern text),
    (findall percent_pattern text).
  split; [apply extract_key_phrases_scans|].
  repeat split;
    (eapply List.Forall_impl; [|apply findall_sound]);
    intros m [Hm Hp]; (split; [|exact Hp]).
  - now apply lang_money_pattern.
  - now apply lang_time_pattern.
  - now apply lang_percent_pattern.
Qed.

(** *** Classification *)

(** X9. The keywords "coverage", "waiting" and "not covered" decide
    nothing: each holds a keyword that is looked at no later ("cover",
    "wait"), so the table without them gives every text the same tag. *)
Theorem classify_clause_rules_in_effect (text : str) :
  _classify_clause text = first_match rules_in_effect (lower text).
Proof.
  unfold _classify_clause.
  cbn [first_match rules_in_effect any_in existsb].
  set (t := lower text).
  assert (Hcv : contains (lit "coverage") t = true ->
                contains (lit "cover") t = true)
    by (apply contains_trans; reflexivity).
  assert (Hnc : contains (lit "not covered") t = true ->
                contains (lit "cover") t = true)
    by (apply contains_trans; reflexivity).
  assert (Hw : contains (lit "waiting") t = true ->
               contains (lit "wait") t = true)
    by (apply contains_trans; reflexivity).
  destruct (contains (lit "cover") t); [reflexivity|].
  destruct (contains (lit "coverage") t); [now specialize (Hcv eq_refl)|].
  destruct (contains (lit "not covered") t); [now specialize (Hnc eq_refl)|].
  destruct (contains (lit "waiting") t);
    [rewrite (Hw eq_refl), !orb_true_r; reflexivity|].
  now rewrite !orb_false_r.
Qed.

Lemma first_match_sound (rs : list (kind * list str)) (t : str) :
  (first_match rs t = general /\
   Forall (fun r => any_in (snd r) t = false) rs) \/
  (exists words : list str,
      In (first_match rs t, words) rs /\ any_in words t = true).
Proof.
  induction rs as [|[tag words] rs IH]; cbn [first_match].
  - left. split; [reflexivity | constructor].
  - destruct (any_in words t) eqn:E.
    + right. exists words. split; [now left | exact E].
    + destruct IH as [[Hg Hall]|(ws & Hin & Hws)].
      * left. split; [exact Hg | now constructor].
      * right. exists ws. split; [now right | exact Hws].
Qed.

(** X10. A tag other than [general] is given only to a text that
    holds, in lower case, a keyword of that tag's rule; [general] is
    given exactly to the texts that hold no keyword of any rule. *)
Theorem classify_clause_tag_has_keyword (text : str) :
  (_classify_clause text = general <->
   forall (tag : kind) (words : list str) (w : str),
     In (tag, words) rules -> In w words ->
     contains w (lower text) = false) /\
  (_classify_clause text <> general ->
   exists (words : list str) (w : str),
     In (_classify_clause text, words) rules /\ In w words /\
     contains w (lower text) = true).
Proof.
  rewrite (classify_clause_by_rules text). unfold classify_by_rules.
  assert (Hno : forall words : list str, ~ In (general, words) rules).
  { intros words H. cbn in H.
    repeat (destruct H as [H|H]; [discriminate H|]). exact H. }
  destruct (first_match_sound rules (lower text))
    as [[Hg Hall]|(words & Hin & Hany)].
  - split.
    + split; [|intros _; exact Hg].
      intros _ tag words w Hin Hw.
      rewrite List.Forall_forall in Hall. specialize (Hall _ Hin).
      cbn [snd] in Hall. unfold any_in in Hall.
      destruct (contains w (lower text)) eqn:E; [|reflexivity].
      rewrite <- Hall. symmetry. apply existsb_exists. now exists w.
    + intros H. now rewrite Hg in H.
  - unfold any_in in Hany. apply existsb_exists in Hany as (w & Hw & Hc).
    split.
    + split.
      * intros Hg. rewrite Hg in Hin. now apply Hno in Hin.
      * intros H. rewrite (H _ _ _ Hin Hw) in Hc. discriminate.
    + intros _. now exists words, w.
Qed.

(** *** The search string *)

Lemma slice_to_ten {A : Type} (l : list A) : slice_to l 10 = take 10 l.
Proof.
  unfold slice_to, adjust, len. cbn [Z.ltb Z.compare].
  destruct (Z.min_spec 10 (Z.of_nat (length l))) as [[H ->]|[H ->]].
  - reflexivity.
  - rewrite Nat2Z.id. rewrite !take_ge by lia. reflexivity.
Qed.

(** The search string in one formula. *)
Lemma search_query_formula (parsed_query : gmap string (list str)) :
  search_query parsed_query =
  let terms := take 10 (default [] (parsed_query !! "keywords")) ++
               default [] (parsed_query !! "entities") in
  if truthy terms then join (lit " ") terms
  else lit "general policy information".
Proof.
  unfold search_query.
  destruct (parsed_query !! "keywords") as [[|w ws]|];
    destruct (parsed_query !! "entities") as [[|e es]|];
    cbn [default app]; rewrite ?slice_to_ten, ?app_nil_r; reflexivity.
Qed.

(** X11. The search string is built from the first ten keywords and all
    entities: keywords after the tenth have no influence on it, and a
    missing "keywords" entry counts as an empty one. *)
Theorem search_query_first_ten_keywords
        (parsed_query : gmap string (list str)) :
  search_query
    (<["keywords" := take 10 (default [] (parsed_query !! "keywords"))]>
       parsed_query) =
  search_query parsed_query.
Proof.
  rewrite !search_query_formula.
  rewrite lookup_insert_eq, lookup_insert_ne by discriminate.
  cbn [default id]. unfold id. rewrite take_take. reflexivity.
Qed.


End WithUnicode.

Lemma classify_clause_tag_has_keyword_witness :
  exists (words : list str) (w : str),
    In (exclusion, words) rules /\ In w words /\
    contains w (@lower ascii_only (lit "We EXCLUDE dental care.")) = true.
Proof.
  apply (proj2 (@classify_clause_tag_has_keyword ascii_only
                  (lit "We EXCLUDE dental care."))).
  vm_compute. discriminate.
Defined.


(** *** The matcher on a vector store *)

Section OnVectorStore.
Context {U : UnicodeData} {S : VectorStore.Services}.

Lemma search_cases (self : VectorStore.t) (query : str) (k : Z) :
  VectorStore.sorts VectorStore.argsort ->
  VectorStore.search self query k = Returned [] \/
  exists similarities : list Q,
    VectorStore.search self query k =
    Returned (VectorStore.ranked self similarities k).
Proof.
  intros Hsort. unfold VectorStore.search.
  destruct (VectorStore.embeddings self) as [E|]; [|now left].
  destruct (len (VectorStore.texts self) =? 0); [now left|].
  destruct (VectorIndex.search_body_spec self E query k Hsort)
    as [[e ->]|(qe & sims & more & _ & _ & ->)]; [now left|].
  right. now exists sims.
Qed.

Lemma ranked_texts_stored (self : VectorStore.t) (similarities : list Q)
      (k : Z) :
  Forall (fun h : VectorStore.hit =>
            exists idx : nat,
              VectorStore.texts self !! idx = Some (fst (fst h)))
         (VectorStore.ranked self similarities k).
Proof.
  unfold VectorStore.ranked. rewrite List.Forall_map.
  rewrite List.Forall_forall. intros idx Hidx.
  apply List.filter_In in Hidx as [_ Hlt]. apply Nat.ltb_lt in Hlt.
  destruct (lookup_lt_is_Some_2 (VectorStore.texts self) idx Hlt) as [t Ht].
  exists idx. rewrite Ht. unfold VectorStore.entry. cbn [fst].
  f_equal. symmetry. now apply nth_lookup_Some.
Qed.

(** The clause record of one hit. *)
Lemma clause_of_hit (results : list VectorStore.hit) :
  List.map
    (fun '(text, score, metadata) =>
       {| text := text;
          relevance_score := score;
          metadata := metadata;
          clause_type := _classify_clause text;
          key_phrases := _extract_key_phrases text |})
    results =
  List.map
    (fun h : VectorStore.hit =>
       {| text := fst (fst h);
          relevance_score := VectorStore.score h;
          metadata := snd h;
          clause_type := _classify_clause (fst (fst h));
          key_phrases := _extract_key_phrases (fst (fst h)) |})
    results.
Proof. apply List.map_ext. now intros [[t sc] md]. Qed.

(** X13. On a vector store, [find_relevant_clauses] returns, for
    [k >= 0], at most [k] clause records; they are in descending order
    of relevance score; and each carries the text of a stored chunk
    with the tag and the key phrases of that same text. *)
Theorem find_relevant_clauses_on_store (self : VectorStore.t)
        (parsed_query : gmap string (list str)) (k : Z) :
  VectorStore.sorts VectorStore.argsort ->
  exists clauses : list clause,
    find_relevant_clauses (VectorStore.search self) parsed_query k =
    Returned clauses /\
    (0 <= k -> len clauses <= k) /\
    StronglySorted
      (fun a b => (relevance_score b <= relevance_score a)%Q) clauses /\
    Forall (fun c =>
              clause_type c = _classify_clause (text c) /\
              key_phrases c = _extract_key_phrases (text c) /\
              exists idx : nat, VectorStore.texts self !! idx = Some (text c))
           clauses.
Proof.
  intros Hsort. unfold find_relevant_clauses.
  destruct (search_cases self (search_query parsed_query) k Hsort)
    as [->|[sims ->]].
  - exists []. split; [reflexivity|]. split; [intros; unfold len; simpl; lia|].
    split; constructor.
  - rewrite clause_of_hit. eexists. split; [reflexivity|]. split; [|split].
    + intros Hk. unfold len. rewrite length_map.
      now apply VectorIndex.ranked_length.
    + apply VectorIndex.StronglySorted_map. cbn [relevance_score].
      now apply VectorIndex.ranked_sorted.
    + rewrite List.Forall_map. cbn [text clause_type key_phrases].
      eapply List.Forall_impl; [|apply ranked_texts_stored].
      intros h Hh. split; [reflexivity|]. split; [reflexivity | exact Hh].
Qed.

End OnVectorStore.

Lemma find_relevant_clauses_on_store_witness :
  exists clauses : list clause,
    @find_relevant_clauses ascii_only
      (@VectorStore.search VectorStore.toy VectorStore.three_chunks)
      {[ "keywords" := [lit "waiting"; lit "period"] ]} 2 =
    Returned clauses /\
    len clauses <= 2.
Proof.
  destruct (@find_relevant_clauses_on_store ascii_only VectorStore.toy
              VectorStore.three_chunks
              {[ "keywords" := [lit "waiting"; lit "period"] ]} 2
              VectorIndex.insertion_argsort_sorts)
    as (clauses & H & Hlen & _).
  exists clauses. split; [exact H | apply Hlen; lia].
Defined.

End MatcherMore.

(** ** Text extraction *)
Module ExtractionFacts.
Import Py PyFacts Notions PyMore VectorStore Extraction.

Lemma keep_page_cases (texts : list (str * Z)) (text : option str)
      (page_num : Z) :
  keep_page texts text page_num = texts \/
  exists t : str,
    text = Some t /\ strip t <> [] /\
    keep_page texts text page_num = texts ++ [(strip t, page_num + 1)].
Proof.
  unfold keep_page. destruct text as [t|]; [|now left].
  destruct (truthy t && truthy (strip t)) eqn:E; [|now left].
  right. exists t. apply andb_true_iff in E as [_ E].
  repeat split. intros H. rewrite H in E. discriminate.
Qed.

(** What a page loop that ran through has added. *)
Lemma read_pages_spec (pages : list page) :
  forall (page_num : Z) (texts out : list (str * Z)),
    read_pages pages page_num texts = Returned out ->
    exists new : list (str * Z),
      out = texts ++ new /\
      (length new <= length pages)%nat /\
      Forall (fun e => fst e <> [] /\ strip (fst e) = fst e /\
                       page_num < snd e <= page_num + len pages) new /\
      StronglySorted (fun a b => snd a < snd b) new.
Proof.
  induction pages as [|pg rest IH]; intros page_num texts out H.
  - injection H as <-. exists []. rewrite app_nil_r.
    repeat split; constructor.
  - cbn [read_pages] in H. destruct pg as [text|e]; [|discriminate].
    cbn [bind] in H. apply IH in H as (new & -> & Hlen & Hall & Hsorted).
    assert (Hall' : Forall (fun e => fst e <> [] /\ strip (fst e) = fst e /\
                                     page_num < snd e <=
                                     page_num + len (Returned text :: rest))
                           new).
    { eapply List.Forall_impl; [|exact Hall]. intros e (H1 & H2 & H3).
      unfold len, page in *. cbn [length].
      split; [exact H1 | split; [exact H2 | lia]]. }
    destruct (keep_page_cases texts text page_num) as [->|(t & -> & Ht & ->)].
    + exists new. split; [reflexivity|]. split; [cbn [length]; lia|].
      split; assumption.
    + exists ((strip t, page_num + 1) :: new). rewrite <- app_assoc.
      split; [reflexivity|]. split; [cbn [length]; lia|]. split.
      * constructor; [|exact Hall']. cbn [fst snd].
        split; [exact Ht | split; [apply strip_idempotent|]].
        unfold len, page. cbn [length]. lia.
      * constructor; [exact Hsorted|].
        eapply List.Forall_impl; [|exact Hall]. intros e (_ & _ & H3).
        exact (proj1 H3).
Qed.

(** The entries of a page loop started at page 0 with nothing. *)
Lemma read_pages_from_start (pages : list page) (out : list (str * Z)) :
  read_pages pages 0 [] = Returned out ->
  (length out <= length pages)%nat /\
  Forall (fun e => well_formed e /\ snd e <= len pages) out /\
  StronglySorted (fun a b => snd a < snd b) out.
Proof.
  intros H. apply read_pages_spec in H as (new & -> & Hlen & Hall & Hsorted).
  cbn [app]. split; [exact Hlen|]. split; [|exact Hsorted].
  eapply List.Forall_impl; [|exact Hall]. intros [t n] (H1 & H2 & H3).
  unfold well_formed. cbn [fst snd] in *.
  split; [split; [exact H1 | split; [exact H2 | lia]] | lia].
Qed.

Lemma len_slice_to {A : Type} (l : list A) (m : Z) :
  0 <= m -> len (slice_to l m) <= m.
Proof.
  intros Hm. unfold slice_to, len. rewrite length_take. unfold adjust, len.
  destruct (Z.ltb_spec m 0); lia.
Qed.

Lemma page_limit_le (self : loader) (n m : Z) :
  n <= m -> page_limit_holds self m -> page_limit_holds self n.
Proof. intros Hnm [H1 H2]. split; intros; [specialize (H1 H) | specialize (H2 H H0)]; lia. Qed.

Lemma limit_pdfplumber (self : loader) (pages : list page) :
  page_limit_holds self
    (len (slice_to pages
            (if use_local_mode self then max_pages_local
             else if hackathon_mode self then max_pages_hackathon
             else len pages))).
Proof.
  unfold page_limit_holds.
  destruct (use_local_mode self); [|destruct (hackathon_mode self)];
    split; intros; try congruence; apply len_slice_to; vm_compute; congruence.
Qed.

Lemma limit_pypdf (self : loader) (pages : list page) :
  page_limit_holds self
    (len (match (if use_local_mode self then Some max_pages_local
                 else if hackathon_mode self then Some max_pages_hackathon
                 else None) with
          | Some m => slice_to pages m
          | None => pages
          end)).
Proof.
  unfold page_limit_holds.
  destruct (use_local_mode self); [|destruct (hackathon_mode self)];
    split; intros; try congruence; apply len_slice_to; vm_compute; congruence.
Qed.

(** Where the result of the pypdf path comes from. *)
Lemma pypdf_cases (self : loader) (io : surroundings) :
  extract_text_from_pdf_pypdf self io = Returned could_not_extract \/
  exists (all pages : list page) (texts : list (str * Z)),
    pypdf_reader io = Returned all /\
    page_limit_holds self (len pages) /\
    read_pages pages 0 [] = Returned texts /\
    extract_text_from_pdf_pypdf self io = Returned texts.
Proof.
  unfold extract_text_from_pdf_pypdf.
  destruct (pypdf_reader io) as [all|e]; [|now left]. cbn [bind].
  pose proof (limit_pypdf self all) as Hlim. cbv zeta.
  destruct (read_pages _ 0 []) as [texts|e] eqn:E; [|now left].
  right. eexists all, _, texts.
  split; [reflexivity|]. split; [exact Hlim|]. split; [exact E | reflexivity].
Qed.

(** Where the result of [extract_text_from_pdf] comes from. *)
Lemma extract_text_from_pdf_cases (self : loader) (io : surroundings) :
  extract_text_from_pdf self io = Returned could_not_extract \/
  exists (all pages : list page) (texts : list (str * Z)),
    (pdfplumber_open io = Returned all \/ pypdf_reader io = Returned all) /\
    page_limit_holds self (len pages) /\
    read_pages pages 0 [] = Returned texts /\
    extract_text_from_pdf self io = Returned texts.
Proof.
  assert (Hpy : extract_text_from_pdf_pypdf self io = Returned could_not_extract \/
                exists (all pages : list page) (texts : list (str * Z)),
                  (pdfplumber_open io = Returned all \/
                   pypdf_reader io = Returned all) /\
                  page_limit_holds self (len pages) /\
                  read_pages pages 0 [] = Returned texts /\
                  extract_text_from_pdf_pypdf self io = Returned texts).
  { destruct (pypdf_cases self io) as [H|(all & ps & texts & H1 & H2 & H3 & H4)];
      [now left|]. right. exists all, ps, texts. auto. }
  assert (Hpy' : forall r : result (list (str * Z)),
             r = extract_text_from_pdf_pypdf self io ->
             match r with
             | Returned texts => Returned texts
             | Raised _ => extract_text_from_pdf_pypdf self io
             end = Returned could_not_extract \/
             exists (all pages : list page) (texts : list (str * Z)),
               (pdfplumber_open io = Returned all \/
                pypdf_reader io = Returned all) /\
               page_limit_holds self (len pages) /\
               read_pages pages 0 [] = Returned texts /\
               match r with
               | Returned texts => Returned texts
               | Raised _ => extract_text_from_pdf_pypdf self io
               end = Returned texts).
  { intros r ->.
    destruct Hpy as [->|(a & ps & texts & H1 & H2 & H3 & ->)];
      [now left|]. right. exists a, ps, texts. auto. }
  unfold extract_text_from_pdf, extract_text_from_pdf_pdfplumber.
  destruct (temp_file io) as [[]|e]; cbn [bind]; [|exact Hpy].
  destruct (pdfplumber_open io) as [all|e] eqn:Hopen; cbn [bind]; cbv zeta.
  - pose proof (limit_pdfplumber self all) as Hlim.
    destruct (read_pages _ 0 []) as [texts|e] eqn:E.
    + destruct (unlink io) as [[]|e]; cbn [bind]; [|exact Hpy].
      right. eexists all, _, texts. split; [now left|].
      split; [exact Hlim|]. split; [exact E | reflexivity].
    + destruct (unlink io) as [[]|e']; cbn [bind]; [|exact Hpy].
      now apply Hpy'.
  - destruct (unlink io) as [[]|e']; cbn [bind]; [|exact Hpy].
    now apply Hpy'.
Qed.

(** X14. [extract_text_from_pdf] never raises. When neither library
    can open the content, it returns the one entry "Could not extract
    text from PDF" for page 1; it returns the empty list only when a
    library did open the content. *)
Theorem extract_text_from_pdf_never_raises (self : loader)
        (io : surroundings) :
  exists texts : list (str * Z),
    extract_text_from_pdf self io = Returned texts /\
    (forall e1 e2 : exn,
        pdfplumber_open io = Raised e1 -> pypdf_reader io = Raised e2 ->
        texts = could_not_extract) /\
    (texts = [] ->
     exists pages : list page,
       pdfplumber_open io = Returned pages \/ pypdf_reader io = Returned pages).
Proof.
  destruct (extract_text_from_pdf_cases self io)
    as [H|(all & ps & texts & Hlib & _ & _ & H)]; rewrite H.
  - exists could_not_extract. split; [reflexivity|]. split; [reflexivity|].
    discriminate.
  - exists texts. split; [reflexivity|]. split.
    + intros e1 e2 H1 H2. destruct Hlib as [Hl|Hl]; congruence.
    + intros _. now exists all.
Qed.

(** X15. Every entry that [extract_text_from_pdf] returns has a text
    that is not empty and has no white space at its ends, and a page
    number from 1 on; the page numbers go up strictly; and in local
    mode there are at most 5 entries with numbers up to 5, in
    hackathon mode at most 10 with numbers up to 10. *)
Theorem extract_text_from_pdf_entries (self : loader) (io : surroundings)
        (texts : list (str * Z)) :
  extract_text_from_pdf self io = Returned texts ->
  Forall well_formed texts /\
  StronglySorted (fun a b => snd a < snd b) texts /\
  page_limit_holds self (len texts) /\
  Forall (fun e => page_limit_holds self (snd e)) texts.
Proof.
  intros H.
  destruct (extract_text_from_pdf_cases self io)
    as [H'|(all & ps & texts' & _ & Hlim & Hread & H')];
    rewrite H' in H; injection H as <-.
  - split; [|split; [|split]].
    + repeat constructor; vm_compute; congruence.
    + repeat constructor.
    + split; intros; vm_compute; discriminate.
    + repeat constructor; intros; vm_compute; discriminate.
  - apply read_pages_from_start in Hread as (Hlen & Hall & Hsorted).
    split; [|split; [exact Hsorted|split]].
    + eapply List.Forall_impl; [|exact Hall]. now intros e [He _].
    + apply (page_limit_le self _ (len ps)); [unfold len; lia | exact Hlim].
    + eapply List.Forall_impl; [|exact Hall]. intros e [_ He].
      now apply (page_limit_le self _ (len ps)).
Qed.

(** What the paragraph loop has added. *)
Lemma read_paragraphs_spec (paragraphs : list str) :
  forall (i : Z) (texts : list (str * Z)) (t : str) (n : Z),
    In (t, n) (read_paragraphs paragraphs i texts) <->
    In (t, n) texts \/
    exists (p : str) (j : nat),
      paragraphs !! j = Some p /\ n = i + Z.of_nat j + 1 /\
      strip p <> [] /\ t = strip p.
Proof.
  induction paragraphs as [|p rest IH]; intros i texts t n;
    cbn [read_paragraphs].
  - split; [now left|]. intros [H|(p & j & H & _)]; [exact H|].
    now rewrite lookup_nil in H.
  - rewrite IH. split.
    + intros [H|(q & j & Hq & -> & Hne & ->)].
      * destruct (strip p) as [|c sp] eqn:E; cbn [truthy] in H; [now left|].
        apply in_app_or in H as [H|[[= <- <-]|[]]]; [now left|].
        right. exists p, O. rewrite E. repeat split; [lia | discriminate].
      * right. exists q, (S j). repeat split; [exact Hq | lia | exact Hne].
    + intros [H|(q & j & Hq & -> & Hne & ->)].
      * left. destruct (truthy (strip p)); [apply in_or_app; now left | exact H].
      * destruct j as [|j]; cbn in Hq.
        -- injection Hq as ->. left.
           destruct (strip q) as [|c sq] eqn:E; [congruence|]. cbn [truthy].
           apply in_or_app. right. left. f_equal. lia.
        -- right. exists q, j. repeat split; [exact Hq | lia | exact Hne].
Qed.

(** X16. When the document opens and the temporary file makes no
    trouble, [extract_text_from_docx] returns exactly the paragraphs
    that are not blank, trimmed, each with its position in the
    document counted from 1 (blank paragraphs are counted too). *)
Theorem extract_text_from_docx_entries (io : surroundings)
        (paragraphs : list str) :
  temp_file io = Returned tt ->
  unlink io = Returned tt ->
  docx_document io = Returned paragraphs ->
  exists texts : list (str * Z),
    extract_text_from_docx io = Returned texts /\
    forall (t : str) (n : Z),
      In (t, n) texts <->
      exists (p : str) (j : nat),
        paragraphs !! j = Some p /\ n = Z.of_nat j + 1 /\
        strip p <> [] /\ t = strip p.
Proof.
  intros Htemp Hunlink Hdoc. unfold extract_text_from_docx.
  rewrite Htemp, Hunlink, Hdoc. cbn [bind].
  eexists. split; [reflexivity|]. intros t n.
  rewrite read_paragraphs_spec. split.
  - intros [[]|(p & j & H1 & H2 & H3 & H4)]. exists p, j.
    repeat split; try assumption; lia.
  - intros (p & j & H1 & H2 & H3 & H4). right. exists p, j.
    repeat split; try assumption; lia.
Qed.

Lemma extract_text_from_pdf_never_raises_witness :
  extract_text_from_pdf {| use_local_mode := false; hackathon_mode := true |}
    (quiet (Raised (RuntimeError "not a PDF"))) =
  Returned could_not_extract.
Proof.
  destruct (extract_text_from_pdf_never_raises
              {| use_local_mode := false; hackathon_mode := true |}
              (quiet (Raised (RuntimeError "not a PDF"))))
    as (texts & H & Hboth & _).
  rewrite H. f_equal. eapply Hboth; reflexivity.
Defined.

Lemma extract_text_from_pdf_entries_witness :
  Forall well_formed [(lit "Terms.", 3); (lit "Limits", 4)].
Proof.
  apply (extract_text_from_pdf_entries
           {| use_local_mode := false; hackathon_mode := true |}
           (quiet (Returned four_pages))).
  vm_compute. reflexivity.
Defined.

Lemma extract_text_from_docx_entries_witness :
  exists texts : list (str * Z),
    extract_text_from_docx (quiet (Returned four_pages)) = Returned texts /\
    In (lit "Body.", 3) texts.
Proof.
  destruct (extract_text_from_docx_entries (quiet (Returned four_pages))
              [lit "Title"; lit "   "; lit " Body. "])
    as (texts & H & Hin); try reflexivity.
  exists texts. split; [exact H|]. apply Hin.
  exists (lit " Body. "), 2%nat. repeat split. vm_compute. discriminate.
Defined.

End ExtractionFacts.

(** ** The evaluator without the language model *)
Module LogicEvaluatorFacts.
Import Py VectorStore ClauseMatcher Notions LogicEvaluator PyFacts PyMore.

(** *** Trimming, slicing and searching a padded text *)

Lemma lstrip_skip (a s : str) : blank a -> lstrip (a ++ s) = lstrip s.
Proof.
  induction 1 as [|c a Hc _ IH]; simpl; [reflexivity|]. now rewrite Hc.
Qed.

Lemma rstrip_solid_end (u : str) (c : N) :
  is_space c = false -> rstrip (u ++ [c]) = u ++ [c].
Proof.
  intros Hc. unfold rstrip. rewrite rev_app_distr. simpl. rewrite Hc.
  simpl. now rewrite rev_involutive.
Qed.

Lemma blank_rev (b : str) : blank b -> blank (rev b).
Proof. unfold blank. apply List.Forall_rev. Qed.

(** White space around a text that starts and ends with other
    characters is what [strip] removes. *)
Lemma strip_padded (a b u : str) (c0 c : N) :
  blank a -> blank b -> is_space c0 = false -> is_space c = false ->
  strip (a ++ (c0 :: u ++ [c]) ++ b) = c0 :: u ++ [c].
Proof.
  intros Ha Hb Hc0 Hc. unfold strip. rewrite (lstrip_skip a _ Ha).
  simpl. rewrite Hc0. unfold rstrip.
  change (c0 :: (u ++ [c]) ++ b) with ((c0 :: u ++ [c]) ++ b).
  rewrite rev_app_distr, (lstrip_skip (rev b) _ (blank_rev b Hb)).
  fold (rstrip (c0 :: u ++ [c])).
  apply (rstrip_solid_end (c0 :: u) c Hc).
Qed.

Lemma strip_solid (u : str) (c0 c : N) :
  is_space c0 = false -> is_space c = false ->
  strip (c0 :: u ++ [c]) = c0 :: u ++ [c].
Proof.
  intros Hc0 Hc.
  pose proof (strip_padded [] [] u c0 c (List.Forall_nil _) (List.Forall_nil _) Hc0 Hc)
    as H.
  simpl in H. now rewrite app_nil_r in H.
Qed.

Lemma slice_middle {A : Type} (p x q : list A) :
  q <> [] -> slice (p ++ x ++ q) (len p) (- len q) = x.
Proof.
  intros Hq. unfold slice, adjust, len.
  assert (0 < length q)%nat by (destruct q; [congruence | simpl; lia]).
  rewrite !length_app.
  destruct (Z.ltb_spec (Z.of_nat (length p)) 0) as [?|_]; [lia|].
  destruct (Z.ltb_spec (- Z.of_nat (length q)) 0) as [_|?]; [|lia].
  rewrite Z.min_l, Z.max_l by lia.
  rewrite Nat2Z.id, drop_app_length.
  replace (Z.to_nat _) with (length x) by lia.
  apply take_app_length.
Qed.

Lemma slice_to_front {A : Type} (x y : list A) :
  slice_to (x ++ y) (len x) = x.
Proof.
  unfold slice_to, adjust, len. rewrite length_app.
  destruct (Z.ltb_spec (Z.of_nat (length x)) 0) as [?|_]; [lia|].
  rewrite Z.min_l by lia. rewrite Nat2Z.id. apply take_app_length.
Qed.

Lemma rindex_last (c : N) (x b : str) :
  Forall (fun y => y <> c) b -> rindex c (x ++ c :: b) = Some (length x).
Proof.
  intros Hb. induction x as [|y x IH]; simpl.
  - rewrite (rindex_none c b Hb). now rewrite N.eqb_refl.
  - now rewrite IH.
Qed.

Lemma rindex_split (c : N) (w : str) (j : nat) :
  rindex c w = Some j ->
  exists u v : str, w = u ++ c :: v /\ length u = j.
Proof.
  revert j. induction w as [|x w IH]; simpl; intros j H; [discriminate|].
  destruct (rindex c w) as [i|] eqn:E.
  - injection H as <-. destruct (IH i eq_refl) as (u & v & -> & Hu).
    exists (x :: u), v. simpl. now rewrite Hu.
  - destruct (N.eqb_spec x c) as [->|_]; [|discriminate].
    injection H as <-. now exists [], w.
Qed.

Lemma rindex_none_inv (c : N) (w : str) :
  rindex c w = None -> Forall (fun y => y <> c) w.
Proof.
  induction w as [|x w IH]; simpl; intros H; [constructor|].
  destruct (rindex c w); [discriminate|].
  destruct (N.eqb_spec x c); [discriminate|]. constructor; auto.
Qed.

Lemma whole_window (s : str) :
  take (Z.to_nat (adjust (len s) (len s) - adjust (len s) 0))
       (drop (Z.to_nat (adjust (len s) 0)) s) = s.
Proof.
  unfold adjust, len.
  destruct (Z.ltb_spec (Z.of_nat (length s)) 0) as [?|_]; [lia|].
  simpl (0 <? 0). cbv iota. rewrite Z.min_id, Z.min_l by lia. simpl.
  rewrite Z.sub_0_r, Nat2Z.id. unfold drop. apply firstn_all.
Qed.

(** [s.rfind(c)] over the whole text. *)
Lemma rfind_whole (s : str) (c : N) :
  rfind s c 0 (len s) =
  match rindex c s with Some j => Z.of_nat j | None => -1 end.
Proof.
  unfold rfind. rewrite whole_window.
  destruct (rindex c s); [|reflexivity].
  replace (adjust (len s) 0) with 0; [lia|].
  unfold adjust. rewrite Z.ltb_irrefl. unfold len. lia.
Qed.

Lemma up_to_last_brace_cases (s : str) :
  (Forall (fun y => y <> closing_brace) s /\ up_to_last_brace s = s) \/
  (exists u v : str,
      s = u ++ closing_brace :: v /\
      up_to_last_brace s = u ++ [closing_brace]).
Proof.
  unfold up_to_last_brace. rewrite rfind_whole.
  destruct (rindex closing_brace s) as [j|] eqn:E.
  - right. destruct (rindex_split _ _ _ E) as (u & v & -> & Hu).
    exists u, v. split; [reflexivity|].
    destruct (Z.eqb_spec (Z.of_nat j) (-1)) as [?|_]; [lia|]. cbn [negb].
    replace (Z.of_nat j + 1) with (len (u ++ [closing_brace]))
      by (unfold len; rewrite length_app; simpl; lia).
    change (u ++ closing_brace :: v) with (u ++ [closing_brace] ++ v).
    rewrite app_assoc. apply slice_to_front.
  - left. split; [now apply rindex_none_inv | reflexivity].
Qed.

Lemma up_to_last_brace_closed (x b : str) :
  Forall (fun y => y <> closing_brace) b ->
  up_to_last_brace (x ++ closing_brace :: b) = x ++ [closing_brace].
Proof.
  intros Hb. unfold up_to_last_brace. rewrite rfind_whole, (rindex_last _ _ _ Hb).
  destruct (Z.eqb_spec (Z.of_nat (length x)) (-1)) as [?|_]; [lia|]. cbn [negb].
  replace (Z.of_nat (length x) + 1) with (len (x ++ [closing_brace]))
    by (unfold len; rewrite length_app; simpl; lia).
  change (x ++ closing_brace :: b) with (x ++ [closing_brace] ++ b).
  rewrite app_assoc. apply slice_to_front.
Qed.

Lemma blank_no_brace (b : str) :
  blank b -> Forall (fun y => y <> closing_brace) b.
Proof.
  unfold blank. apply List.Forall_impl. intros y Hy ->. discriminate.
Qed.

(** *** [_clean_json_response] *)

Lemma clean_json_response_steps (response_text : str) :
  _clean_json_response response_text =
  strip
    (up_to_last_brace
       (if starts_with (lit "```json") (strip response_text)
        then slice (strip response_text) 7 (-3)
        else if starts_with (lit "```") (strip response_text)
             then slice (strip response_text) 3 (-3)
             else strip response_text)).
Proof. reflexivity. Qed.

Lemma up_to_last_brace_piece (s : str) : piece_of (up_to_last_brace s) s.
Proof.
  destruct (up_to_last_brace_cases s) as [[_ ->]|(u & v & Hs & ->)].
  - exists [], []. simpl. now rewrite app_nil_r.
  - exists [], v. simpl. now rewrite <- app_assoc.
Qed.

Lemma strip_ends_with_brace (u : str) :
  exists p : str, strip (u ++ [closing_brace]) = p ++ [closing_brace].
Proof.
  unfold strip.
  destruct (lstrip_keeps_last u closing_brace eq_refl) as [v ->].
  exists v. now apply rstrip_solid_end.
Qed.

Lemma finish_shape (fenced : str) :
  Forall (fun c => c <> closing_brace) (strip (up_to_last_brace fenced)) \/
  exists p : str, strip (up_to_last_brace fenced) = p ++ [closing_brace].
Proof.
  destruct (up_to_last_brace_cases fenced) as [[Hno ->]|(u & v & _ & ->)].
  - left. destruct (strip_infix fenced) as (p & q & Hpq).
    rewrite Hpq in Hno.
    apply Forall_app in Hno as [_ Hno]. now apply Forall_app in Hno as [Hno _].
  - right. apply strip_ends_with_brace.
Qed.

(** X17. The cleaned reply is a contiguous piece of the reply with no
    white space at its ends, and it either has no closing brace at all
    or ends with one: whatever follows the last closing brace is cut. *)
Theorem clean_json_response_shape (response_text : str) :
  piece_of (_clean_json_response response_text) response_text /\
  strip (_clean_json_response response_text) =
  _clean_json_response response_text /\
  (Forall (fun c => c <> closing_brace) (_clean_json_response response_text) \/
   exists p : str, _clean_json_response response_text = p ++ [closing_brace]).
Proof.
  rewrite clean_json_response_steps.
  set (fenced := if starts_with (lit "```json") (strip response_text)
                 then slice (strip response_text) 7 (-3)
                 else if starts_with (lit "```") (strip response_text)
                      then slice (strip response_text) 3 (-3)
                      else strip response_text).
  assert (Hf : piece_of fenced response_text).
  { unfold fenced, piece_of.
    destruct (starts_with (lit "```json") (strip response_text));
      [|destruct (starts_with (lit "```") (strip response_text))].
    - eapply infix_trans; [apply slice_infix | apply strip_infix].
    - eapply infix_trans; [apply slice_infix | apply strip_infix].
    - apply strip_infix. }
  split; [|split].
  - unfold piece_of in *.
    eapply infix_trans; [apply strip_infix|].
    eapply infix_trans; [apply up_to_last_brace_piece | exact Hf].
  - apply strip_idempotent.
  - apply finish_shape.
Qed.

Lemma finish_padded (a b inner : str) :
  blank a -> blank b ->
  strip (up_to_last_brace (a ++ json_object inner ++ b)) = json_object inner.
Proof.
  intros Ha Hb. unfold json_object.
  replace (a ++ (lit "{" ++ inner ++ [closing_brace]) ++ b)
    with ((a ++ lit "{" ++ inner) ++ closing_brace :: b)
    by (rewrite <- !app_assoc; reflexivity).
  rewrite (up_to_last_brace_closed _ b (blank_no_brace b Hb)).
  replace ((a ++ lit "{" ++ inner) ++ [closing_brace])
    with (a ++ (123%N :: inner ++ [closing_brace]) ++ [])
    by (rewrite app_nil_r, <- !app_assoc; reflexivity).
  now apply strip_padded; [| constructor | |].
Qed.

(** X18. A JSON object comes back as it was written, from a bare reply,
    from one inside a [```json] fence and from one inside a plain [```]
    fence, whatever white space surrounds it or the fence. *)
Theorem clean_json_response_recovers_object (a b a' b' inner : str) :
  blank a -> blank b -> blank a' -> blank b' ->
  _clean_json_response (a ++ json_object inner ++ b) = json_object inner /\
  _clean_json_response
    (a ++ (lit "```json" ++ a' ++ json_object inner ++ b' ++ lit "```") ++ b) =
  json_object inner /\
  _clean_json_response
    (a ++ (lit "```" ++ a' ++ json_object inner ++ b' ++ lit "```") ++ b) =
  json_object inner.
Proof.
  intros Ha Hb Ha' Hb'. split; [|split]; rewrite clean_json_response_steps.
  - assert (Hs : strip (a ++ json_object inner ++ b) = json_object inner)
      by now apply strip_padded.
    rewrite Hs. cbn [json_object starts_with lit].
    change (starts_with (lit "```json") (json_object inner)) with false.
    change (starts_with (lit "```") (json_object inner)) with false.
    cbv iota.
    rewrite <- (finish_padded [] [] inner) at 2 by constructor.
    simpl. now rewrite app_nil_r.
  - assert (Hs : strip (a ++ (lit "```json" ++ a' ++ json_object inner ++ b'
                              ++ lit "```") ++ b) =
                 lit "```json" ++ (a' ++ json_object inner ++ b') ++ lit "```").
    { replace (lit "```json" ++ a' ++ json_object inner ++ b' ++ lit "```")
        with (96%N :: (lit "``json" ++ a' ++ json_object inner ++ b' ++ lit "``")
                ++ [96%N]).
      - rewrite strip_padded by (assumption || reflexivity).
        change (lit "```json") with (96%N :: lit "``json").
        change (lit "```") with (lit "``" ++ [96%N]).
        cbn [app]. rewrite <- ?app_assoc. reflexivity.
      - change (lit "```json") with (96%N :: lit "``json").
        change (lit "```") with (lit "``" ++ [96%N]).
        cbn [app]. rewrite <- ?app_assoc. reflexivity. }
    rewrite Hs, starts_with_app.
    change 7 with (len (lit "```json")). change (-3) with (- len (lit "```")).
    rewrite slice_middle by discriminate.
    now apply finish_padded.
  - assert (Hs : strip (a ++ (lit "```" ++ a' ++ json_object inner ++ b'
                              ++ lit "```") ++ b) =
                 lit "```" ++ (a' ++ json_object inner ++ b') ++ lit "```").
    { replace (lit "```" ++ a' ++ json_object inner ++ b' ++ lit "```")
        with (96%N :: (lit "``" ++ a' ++ json_object inner ++ b' ++ lit "``")
                ++ [96%N]).
      - rewrite strip_padded by (assumption || reflexivity).
        change (lit "```") with (96%N :: lit "``") at 1.
        change (lit "```") with (lit "``" ++ [96%N]).
        cbn [app]. rewrite <- ?app_assoc. reflexivity.
      - change (lit "```") with (96%N :: lit "``") at 2.
        change (lit "```") with (lit "``" ++ [96%N]).
        cbn [app]. rewrite <- ?app_assoc. reflexivity. }
    rewrite Hs, starts_with_app.
    assert (Hj : starts_with (lit "```json")
                   (lit "```" ++ (a' ++ json_object inner ++ b') ++ lit "```")
                 = false).
    { destruct Ha' as [|c a' Hc _]; [reflexivity|].
      change (starts_with (lit "```json") (lit "```" ++ ((c :: a') ++ json_object inner ++ b') ++ lit "```"))
        with (N.eqb 106 c && starts_with (lit "son") ((a' ++ json_object inner ++ b') ++ lit "```")).
      destruct (N.eqb_spec 106 c) as [<-|_]; [discriminate | reflexivity]. }
    rewrite Hj.
    change 3 with (len (lit "```")) at 1. change (-3) with (- len (lit "```")).
    rewrite slice_middle by discriminate.
    now apply finish_padded.
Qed.

Lemma clean_json_response_recovers_object_witness :
  _clean_json_response
    (lit " " ++ (lit "```json" ++ [10%N] ++
                    json_object (lit "'answer': 'Yes'") ++
                    [10%N] ++ lit "```") ++ [10%N]) =
  json_object (lit "'answer': 'Yes'").
Proof.
  apply (clean_json_response_recovers_object
           (lit " ") [10%N] [10%N] [10%N] (lit "'answer': 'Yes'"));
    repeat constructor.
Defined.

(** *** [_validate_response_structure] *)

(** The loop over [required_fields] adds the missing keys and touches no
    key that is there. *)
Lemma fill_lookup (fields : list (string * json)) :
  forall (res : gmap string json) (k : string),
    fill res fields !! k =
    match res !! k with
    | Some v => Some v
    | None => (list_to_map fields : gmap string json) !! k
    end.
Proof.
  unfold fill.
  induction fields as [|[f d] fields IH]; intros res k; cbn [fold_left fst snd].
  - cbn. rewrite lookup_empty. now destruct (res !! k).
  - rewrite IH. cbn [list_to_map foldr fst snd uncurry].
    destruct (res !! f) as [w|] eqn:Hf.
    + destruct (res !! k) as [v|] eqn:Hk; [reflexivity|].
      destruct (decide (f = k)) as [->|Hne]; [congruence|].
      now rewrite lookup_insert_ne.
    + destruct (decide (f = k)) as [->|Hne].
      * now rewrite Hf, !lookup_insert_eq.
      * rewrite !lookup_insert_ne by assumption. reflexivity.
Qed.

Lemma required_fields_keys (query : str) :
  (required_fields query).*1 = required_keys.
Proof. reflexivity. Qed.

Lemma fill_required (res : gmap string json) (query : str) (k : string) :
  (k ∈ required_keys -> is_Some (fill res (required_fields query) !! k)) /\
  (forall v : json,
      res !! k = Some v -> fill res (required_fields query) !! k = Some v) /\
  (k ∉ required_keys ->
   fill res (required_fields query) !! k = res !! k).
Proof.
  rewrite fill_lookup. split; [|split].
  - intros Hk. destruct (res !! k); [eauto|].
    rewrite <- (required_fields_keys query) in Hk.
    apply list_elem_of_fmap in Hk as [[k0 d] [-> Hin]].
    cbn [fst].
    apply elem_of_list_to_map_1 in Hin; [rewrite Hin; eauto|].
    rewrite required_fields_keys.
    apply (bool_decide_unpack _). vm_compute. exact I.
  - now intros v ->.
  - intros Hk. destruct (res !! k); [reflexivity|].
    apply not_elem_of_list_to_map_1. now rewrite (required_fields_keys query).
Qed.

Lemma is_one_of_true (v : json) (valid : list str) :
  is_one_of v valid = true <-> exists s : str, v = JStr s /\ s ∈ valid.
Proof.
  destruct v; cbn; split; try discriminate;
    try (intros (s' & [=] & _); fail).
  - intros H. apply bool_decide_eq_true in H. eauto.
  - intros (s' & [= <-] & H). now apply bool_decide_eq_true.
Qed.

(** One validation step on a key that is there. *)
Lemma fix_field_present (field : string) (valid : list str) (fallback : str)
      (res : gmap string json) (v : json) :
  res !! field = Some v ->
  fallback ∈ valid ->
  exists res' : gmap string json,
    fix_field field valid fallback res = Returned res' /\
    holds_one_of res' field valid /\
    (is_one_of v valid = true -> res' = res) /\
    (forall k : string, k <> field -> res' !! k = res !! k).
Proof.
  intros Hv Hfb. unfold fix_field. rewrite Hv.
  destruct (is_one_of v valid) eqn:E.
  - exists res. repeat split; try reflexivity.
    apply is_one_of_true in E as (s & -> & Hs). now exists s.
  - exists (<[field := JStr fallback]> res). split; [reflexivity|].
    split; [|split].
    + exists fallback. now rewrite lookup_insert_eq.
    + discriminate.
    + intros k Hk. now rewrite lookup_insert_ne.
Qed.

(** What [_validate_response_structure] returns, key by key. *)
Lemma validate_response_structure_spec (res : gmap string json) (query : str) :
  exists res' : gmap string json,
    _validate_response_structure res query = Returned res' /\
    holds_one_of res' "confidence" valid_confidence /\
    holds_one_of res' "decision" valid_decisions /\
    (forall k : string,
        k <> "confidence" -> k <> "decision" ->
        res' !! k = fill res (required_fields query) !! k) /\
    (forall v : json,
        fill res (required_fields query) !! "confidence" = Some v ->
        is_one_of v valid_confidence = true ->
        res' !! "confidence" = Some v) /\
    (forall v : json,
        fill res (required_fields query) !! "decision" = Some v ->
        is_one_of v valid_decisions = true ->
        res' !! "decision" = Some v).
Proof.
  unfold _validate_response_structure.
  set (r0 := fill res (required_fields query)).
  destruct (proj1 (fill_required res query "confidence")) as [c Hc];
    [apply (bool_decide_unpack _); vm_compute; exact I|].
  destruct (proj1 (fill_required res query "decision")) as [d Hd];
    [apply (bool_decide_unpack _); vm_compute; exact I|].
  fold r0 in Hc, Hd.
  destruct (fix_field_present "confidence" valid_confidence (lit "Low") r0 c Hc)
    as (r1 & -> & Hc1 & Hsame1 & Hother1); [apply (bool_decide_unpack _); vm_compute; exact I|].
  cbn [VectorStore.bind].
  assert (Hd1 : r1 !! "decision" = Some d) by (rewrite Hother1; [exact Hd|discriminate]).
  destruct (fix_field_present "decision" valid_decisions
              (lit "insufficient_info") r1 d Hd1)
    as (r2 & Hr2 & Hd2 & Hsame2 & Hother2); [apply (bool_decide_unpack _); vm_compute; exact I|].
  exists r2. split; [exact Hr2|]. split; [|split; [exact Hd2|split; [|split]]].
  - destruct Hc1 as (s & Hs & Hin). exists s. split; [|exact Hin].
    rewrite Hother2; [exact Hs|discriminate].
  - intros k Hk1 Hk2. now rewrite Hother2, Hother1.
  - intros v Hv Hok. rewrite Hother2 by discriminate.
    rewrite Hc in Hv. injection Hv as <-. now rewrite (Hsame1 Hok).
  - intros v Hv Hok. rewrite Hd in Hv. injection Hv as <-.
    now rewrite (Hsame2 Hok).
Qed.

Lemma required_key_present (res : gmap string json) (query : str)
      (res' : gmap string json) (k : string) :
  _validate_response_structure res query = Returned res' ->
  k ∈ required_keys -> is_Some (res' !! k).
Proof.
  intros Hrun Hk.
  destruct (validate_response_structure_spec res query)
    as (r & Hr & [c [Hc _]] & [d [Hd _]] & Hother & _).
  rewrite Hr in Hrun. injection Hrun as <-.
  destruct (decide (k = "confidence")) as [->|Hk1]; [eauto|].
  destruct (decide (k = "decision")) as [->|Hk2]; [eauto|].
  rewrite (Hother k Hk1 Hk2). now apply fill_required.
Qed.

(** X19. Validation never raises, whatever the reply held: the result has
    all nine keys of the response, its confidence is one of High, Medium
    and Low, and its decision is one of the four decision types. *)
Theorem validate_response_structure_normal_form (res : gmap string json)
        (query : str) :
  exists res' : gmap string json,
    _validate_response_structure res query = Returned res' /\
    Forall (fun k => is_Some (res' !! k)) required_keys /\
    holds_one_of res' "confidence" valid_confidence /\
    holds_one_of res' "decision" valid_decisions.
Proof.
  destruct (validate_response_structure_spec res query)
    as (r & Hr & Hc & Hd & _).
  exists r. split; [exact Hr|]. split; [|split; assumption].
  apply Forall_forall. intros k Hk.
  now apply (required_key_present res query).
Qed.

(** X20. Validation keeps what the reply held: every entry of the reply
    is in the result unchanged, unless it is a confidence or a decision
    outside the valid values; and a key that the reply lacked and that
    is not a required one is still absent. *)
Theorem validate_response_structure_keeps (res : gmap string json)
        (query : str) (res' : gmap string json) (k : string) :
  _validate_response_structure res query = Returned res' ->
  (forall v : json,
      res !! k = Some v ->
      (k = "confidence" -> is_one_of v valid_confidence = true) ->
      (k = "decision" -> is_one_of v valid_decisions = true) ->
      res' !! k = Some v) /\
  (res !! k = None -> k ∉ required_keys -> res' !! k = None).
Proof.
  intros Hrun.
  destruct (validate_response_structure_spec res query)
    as (r & Hr & _ & _ & Hother & Hconf & Hdec).
  rewrite Hr in Hrun. injection Hrun as <-.
  destruct (fill_required res query k) as (_ & Hkeep & Hout).
  split.
  - intros v Hv Hc Hd.
    destruct (decide (k = "confidence")) as [->|Hk1]; [now auto|].
    destruct (decide (k = "decision")) as [->|Hk2]; [now auto|].
    rewrite (Hother k Hk1 Hk2). now apply Hkeep.
  - intros Hnone Hk.
    assert (Hk1 : k <> "confidence").
    { intros ->. apply Hk. apply (bool_decide_unpack _). vm_compute. exact I. }
    assert (Hk2 : k <> "decision").
    { intros ->. apply Hk. apply (bool_decide_unpack _). vm_compute. exact I. }
    now rewrite (Hother k Hk1 Hk2), (Hout Hk).
Qed.

Lemma validate_response_structure_keeps_witness :
  exists res' : gmap string json,
    _validate_response_structure
      {[ "answer" := JStr (lit "Yes"); "confidence" := JStr (lit "high");
         "page" := JNum 3 ]} (lit "Is it covered?") = Returned res' /\
    res' !! "answer" = Some (JStr (lit "Yes")) /\
    res' !! "page" = Some (JNum 3) /\
    res' !! "note" = None.
Proof.
  destruct (validate_response_structure_spec
              {[ "answer" := JStr (lit "Yes"); "confidence" := JStr (lit "high");
                 "page" := JNum 3 ]} (lit "Is it covered?"))
    as (res' & H & _).
  exists res'. split; [exact H|]. split; [|split].
  - apply (proj1 (validate_response_structure_keeps _ _ res' "answer" H));
      [reflexivity | discriminate | discriminate].
  - apply (proj1 (validate_response_structure_keeps _ _ res' "page" H));
      [reflexivity | discriminate | discriminate].
  - apply (proj2 (validate_response_structure_keeps _ _ res' "note" H));
      [reflexivity|].
    apply (bool_decide_unpack _). vm_compute. exact I.
Defined.

(** X21. A validated result passes validation unchanged, also under
    another question. *)
Theorem validate_response_structure_idempotent (res : gmap string json)
        (query query' : str) (res' : gmap string json) :
  _validate_response_structure res query = Returned res' ->
  _validate_response_structure res' query' = Returned res'.
Proof.
  intros Hrun.
  destruct (validate_response_structure_spec res query)
    as (r & Hr & (c & Hc & Hcin) & (d & Hd & Hdin) & _).
  assert (r = res') as -> by congruence.
  destruct (validate_response_structure_spec res' query')
    as (r' & Hr' & _ & _ & Hother & Hconf & Hdec).
  rewrite Hr'. f_equal. apply map_eq. intros k.
  destruct (decide (k = "confidence")) as [->|Hk1].
  { rewrite Hc. apply Hconf.
    - now apply fill_required.
    - apply is_one_of_true. eauto. }
  destruct (decide (k = "decision")) as [->|Hk2].
  { rewrite Hd. apply Hdec.
    - now apply fill_required.
    - apply is_one_of_true. eauto. }
  rewrite (Hother k Hk1 Hk2).
  destruct (fill_required res' query' k) as (_ & Hkeep & Hout).
  destruct (decide (k ∈ required_keys)) as [Hin|Hnin]; [|now apply Hout].
  destruct (required_key_present res query res' k Hrun Hin) as [v Hv].
  rewrite Hv. now apply Hkeep.
Qed.

Lemma validate_response_structure_idempotent_witness :
  exists res' : gmap string json,
    _validate_response_structure {[ "confidence" := JStr (lit "high") ]}
      (lit "Is it covered?") = Returned res' /\
    _validate_response_structure res' (lit "Since when?") = Returned res'.
Proof.
  destruct (validate_response_structure_spec
              {[ "confidence" := JStr (lit "high") ]} (lit "Is it covered?"))
    as (res' & H & _).
  exists res'. split; [exact H|].
  exact (validate_response_structure_idempotent _ _ (lit "Since when?") res' H).
Defined.

(** *** The local mode *)

Lemma as_dict_content (c : clause) : as_dict c !! "content" = None.
Proof. reflexivity. Qed.

Lemma as_dict_metadata (c : clause) :
  as_dict c !! "metadata" = Some (FMeta (ClauseMatcher.metadata c)).
Proof. reflexivity. Qed.

Lemma slice_to_take {A : Type} (l : list A) (k : Z) :
  0 <= k -> slice_to l k = take (Z.to_nat k) l.
Proof.
  intros Hk. unfold slice_to, adjust, len.
  destruct (Z.ltb_spec k 0) as [?|_]; [lia|].
  destruct (Z.le_ge_cases k (Z.of_nat (length l))) as [H|H].
  - now rewrite Z.min_l.
  - rewrite Z.min_r by lia. rewrite Nat2Z.id.
    rewrite !take_ge by lia. reflexivity.
Qed.

Section WithUnicode.
Context {U : UnicodeData}.

(** On the clauses of the matcher the loop of the local mode collects one
    space per clause, and the page of every clause that has one. *)
Lemma gather_as_dict (cs : list clause) :
  forall (relevant_text : str) (source_pages : list value),
    gather (List.map as_dict cs) relevant_text source_pages =
    Returned
      (relevant_text ++ replicate (length cs) 32%N,
       source_pages ++
         omap (fun c => ClauseMatcher.metadata c !! "page") cs).
Proof.
  induction cs as [|c cs IH]; intros relevant_text source_pages.
  - cbn. now rewrite !app_nil_r.
  - cbn [List.map gather]. unfold content_and_space, note_page.
    rewrite as_dict_content, as_dict_metadata. cbn [VectorStore.bind].
    cbn [omap list_omap length replicate].
    destruct (ClauseMatcher.metadata c !! "page") as [page|];
      cbn [VectorStore.bind]; rewrite IH.
    + do 2 f_equal.
      * rewrite <- app_assoc. reflexivity.
      * rewrite <- app_assoc. reflexivity.
    + do 2 f_equal. rewrite <- app_assoc. reflexivity.
Qed.

(** A text with none of the words that the templates look for gets the
    default answer. *)
Lemma generate_local_answer_default (query relevant_text : str) :
  any_in [lit "age"; lit "year"] (lower relevant_text) = false ->
  any_in [lit "surgery"; lit "treatment"; lit "medical"; lit "hospital"]
    (lower relevant_text) = false ->
  any_in [lit "policy"; lit "coverage"; lit "benefit"]
    (lower relevant_text) = false ->
  any_in [lit "month"; lit "day"; lit "year"; lit "period"]
    (lower relevant_text) = false ->
  _generate_local_answer query relevant_text =
  lit "Based on the document analysis: " ++ slice_to relevant_text 300
  ++ lit "...".
Proof.
  intros H1 H2 H3 H4. unfold _generate_local_answer.
  rewrite H2, H3, H4.
  replace (contains (lit "age") (lower relevant_text)
           || contains (lit "year") (lower relevant_text)) with false.
  - now rewrite !andb_false_r.
  - symmetry. etransitivity; [|exact H1].
    unfold any_in. cbn [existsb]. now rewrite orb_false_r.
Qed.

(** X22. On the clauses that the matcher builds, the local mode returns
    and its answer quotes no text of a clause: the loop reads the key
    [content], the clauses keep their text under [text], so the answer is
    the default sentence around one space per clause read, whatever the
    query. The pages are those of the first three clauses. *)
Theorem evaluate_clauses_local_mode_on_matcher_clauses (query : str)
        (cs : list clause) :
  exists r : local_result,
    _evaluate_clauses_local_mode query (List.map as_dict cs) = Returned r /\
    answer r =
    lit "Based on the document analysis: "
    ++ replicate (Nat.min 3 (length cs)) 32%N ++ lit "..." /\
    pages r =
    list_to_set
      (omap (fun c => ClauseMatcher.metadata c !! "page") (take 3 cs)).
Proof.
  unfold _evaluate_clauses_local_mode.
  rewrite slice_to_take by lia. change (Z.to_nat 3) with 3%nat.
  rewrite firstn_map, gather_as_dict. cbn [VectorStore.bind fst snd].
  eexists. split; [reflexivity|]. cbn [answer pages]. split; [|reflexivity].
  rewrite length_take.
  assert (Hn : (Nat.min 3 (length cs) <= 3)%nat) by lia.
  destruct (Nat.min 3 (length cs)) as [|[|[|[|n]]]]; [| | | |lia];
    (rewrite generate_local_answer_default by (vm_compute; reflexivity));
    reflexivity.
Qed.

(** X23. A query with a word that has [age] inside it, such as coverage,
    page or damage, is typed as an age verification; and when the text
    has such a word as well, the answer is the one about age. *)
Theorem classify_query_type_age_inside_word (word query : str) :
  contains (lit "age") word = true ->
  contains word (lower query) = true ->
  _classify_query_type query = age_verification /\
  forall relevant_text : str,
    contains word (lower relevant_text) = true ->
    _generate_local_answer query relevant_text =
    lit "Based on the document analysis, the age-related information shows: "
    ++ slice_to relevant_text 200 ++ lit "...".
Proof.
  intros Hw Hq.
  pose proof (contains_trans _ _ _ Hw Hq) as Hage.
  split.
  - unfold _classify_query_type, any_in. cbn [existsb]. now rewrite Hage.
  - intros relevant_text Ht.
    pose proof (contains_trans _ _ _ Hw Ht) as Hage'.
    unfold _generate_local_answer, any_in. cbn [existsb].
    now rewrite Hage, Hage'.
Qed.

End WithUnicode.

Lemma classify_query_type_age_inside_word_witness :
  @_classify_query_type ascii_only (lit "What is the coverage?") =
  age_verification /\
  @_generate_local_answer ascii_only (lit "What is the coverage?")
    (lit "Coverage starts on day one.") =
  lit "Based on the document analysis, the age-related information shows: "
  ++ lit "Coverage starts on day one." ++ lit "...".
Proof.
  destruct (@classify_query_type_age_inside_word ascii_only (lit "coverage")
              (lit "What is the coverage?")) as [H1 H2];
    [vm_compute; reflexivity | vm_compute; reflexivity |].
  split; [exact H1|].
  rewrite (H2 (lit "Coverage starts on day one."));
    [reflexivity | vm_compute; reflexivity].
Defined.

End LogicEvaluatorFacts.

(** ** The two loops of the endpoint *)
Module EndpointsFacts.
Import Py VectorStore ClauseMatcher LogicEvaluator Endpoints VectorIndex.

Lemma from_page_more (fuel : nat) (cfg : settings) (entry : str * Z)
      (text_chunks : list (str * Z)) (chunk : str) (m : gmap string value) :
  from_page fuel cfg text_chunks chunk m ->
  from_page fuel cfg (entry :: text_chunks) chunk m.
Proof.
  intros (text & page_num & chunks & Hin & Hrun & Hc & Hm).
  exists text, page_num, chunks. repeat split; try assumption. now right.
Qed.

Lemma Forall2_replicate_r {A B : Type} (R : A -> B -> Prop) (l : list A)
      (y : B) :
  Forall (fun x => R x y) l -> Forall2 R l (replicate (length l) y).
Proof. induction 1; cbn; constructor; assumption. Qed.

(** The loop keeps the two lists in step: what it appends to one has its
    metadata appended to the other at the same place. *)
Lemma chunk_pages_spec (fuel : nat) (cfg : settings) :
  forall (text_chunks : list (str * Z)) (all_chunks : list str)
         (chunk_metadata : list (gmap string value))
         (all_chunks' : list str) (chunk_metadata' : list (gmap string value)),
    chunk_pages fuel cfg text_chunks all_chunks chunk_metadata =
    Some (Returned (all_chunks', chunk_metadata')) ->
    exists (added : list str) (added_metadata : list (gmap string value)),
      all_chunks' = all_chunks ++ added /\
      chunk_metadata' = chunk_metadata ++ added_metadata /\
      Forall2 (from_page fuel cfg text_chunks) added added_metadata.
Proof.
  induction text_chunks as [|[text page_num] rest IH];
    intros all_chunks chunk_metadata all_chunks' chunk_metadata' H.
  - cbn in H. injection H as <- <-. exists [], [].
    rewrite !app_nil_r. repeat split. constructor.
  - cbn [chunk_pages] in H.
    destruct (DocumentLoader.chunk_text fuel text (MAX_CHUNK_SIZE cfg)
                (CHUNK_OVERLAP cfg)) as [[chunks|e]|] eqn:Hrun;
      [|discriminate|discriminate].
    destruct (IH _ _ _ _ H) as (added & added_metadata & -> & -> & Hrest).
    exists (chunks ++ added),
      (replicate (length chunks) (page_metadata page_num) ++ added_metadata).
    rewrite !app_assoc. repeat split.
    apply Forall2_app.
    + apply Forall2_replicate_r. apply List.Forall_forall. intros chunk Hc.
      exists text, page_num, chunks. repeat split; try assumption. now left.
    + eapply Forall2_impl; [exact Hrest|].
      intros chunk m. apply from_page_more.
Qed.

(** X24. When the chunking loop of the endpoint returns, it has one
    metadata entry per chunk, and the entry at the place of a chunk names
    the page whose text the chunk was cut from. *)
Theorem chunk_pages_metadata_per_chunk (fuel : nat) (cfg : settings)
        (text_chunks : list (str * Z)) (all_chunks : list str)
        (chunk_metadata : list (gmap string value)) :
  chunk_pages fuel cfg text_chunks [] [] =
  Some (Returned (all_chunks, chunk_metadata)) ->
  length chunk_metadata = length all_chunks /\
  Forall2 (from_page fuel cfg text_chunks) all_chunks chunk_metadata.
Proof.
  intros H.
  destruct (chunk_pages_spec _ _ _ _ _ _ _ H)
    as (added & added_metadata & -> & -> & Hall).
  cbn [app]. split; [|exact Hall].
  symmetry. exact (Forall2_length _ _ _ Hall).
Qed.

Lemma chunk_pages_metadata_per_chunk_witness :
  length [page_metadata 1; page_metadata 2] =
  length [lit "Page one."; lit "Page two."] /\
  Forall2 (from_page 1 default_settings
             [(lit "Page one.", 1); (lit "Page two.", 2)])
    [lit "Page one."; lit "Page two."] [page_metadata 1; page_metadata 2].
Proof.
  apply (chunk_pages_metadata_per_chunk 1 default_settings
           [(lit "Page one.", 1); (lit "Page two.", 2)]).
  reflexivity.
Defined.

Section Indexing.
Context {S : Services}.

(** X25. When the endpoint has indexed a document with an embedding
    service that gives one vector per text, the store of the request has
    one embedding and one metadata entry per text, and every stored text
    stands beside the metadata of the page it was cut from. *)
Theorem index_document_aligned (fuel : nat) (cfg : settings)
        (text_chunks : list (str * Z)) (request_vector_store : t) :
  one_row_per_text encode ->
  index_document fuel cfg text_chunks = Some (Returned request_vector_store) ->
  aligned request_vector_store /\
  Forall2 (from_page fuel cfg text_chunks)
    (texts request_vector_store) (VectorStore.metadata request_vector_store).
Proof.
  intros Henc. unfold index_document.
  destruct (chunk_pages fuel cfg text_chunks [] [])
    as [[[all_chunks chunk_metadata]|e]|] eqn:Hchunks;
    [|discriminate|discriminate].
  destruct (chunk_pages_spec _ _ _ _ _ _ _ Hchunks)
    as (added & added_metadata & Ha & Hm & Hall).
  cbn [app] in Ha, Hm. subst added added_metadata.
  pose proof (Forall2_length _ _ _ Hall) as Hlen.
  assert (Hinit : aligned init) by (split; reflexivity).
  assert (Hfits : fits all_chunks (Some chunk_metadata))
    by (right; exists chunk_metadata; split; [reflexivity | now symmetry]).
  pose proof (add_documents_aligned init all_chunks (Some chunk_metadata)
                Henc Hfits Hinit) as Hal.
  destruct (add_documents_cases init all_chunks (Some chunk_metadata))
    as [[Hnil Hrun]|[[e Hrun]|(E & E' & Hne & _ & _ & Hrun)]];
    rewrite Hrun in Hal |- *; cbn [fst] in Hal; intros [= <-].
  - split; [exact Hal|]. cbn. constructor.
  - split; [exact Hal|]. cbn [texts VectorStore.metadata init app].
    unfold appended.
    destruct chunk_metadata as [|m ms].
    + destruct all_chunks; [congruence | discriminate Hlen].
    + exact Hall.
Qed.

End Indexing.

Lemma index_document_aligned_witness :
  exists request_vector_store : t,
    @index_document toy 1 default_settings
      [(lit "Page one.", 1); (lit "Page two.", 2)] =
    Some (Returned request_vector_store) /\
    aligned request_vector_store.
Proof.
  eexists. split; [reflexivity|].
  apply (@index_document_aligned toy 1 default_settings
           [(lit "Page one.", 1); (lit "Page two.", 2)]);
    [exact toy_one_row_per_text | reflexivity].
Defined.

Section Questions.
Context {U : UnicodeData}.
Variable parse_query : str -> result (gmap string (list str)).
Variable vector_store_search : str -> Z -> result (list hit).
Variable evaluate_clauses : str -> list clause -> result (gmap string json).
Variable str_of_exn : exn -> str.

Abbreviation answer_one' :=
  (answer_one parse_query vector_store_search evaluate_clauses str_of_exn).
Abbreviation answer_questions' :=
  (answer_questions parse_query vector_store_search evaluate_clauses
     str_of_exn).

Lemma answer_questions_map (cfg : settings) (questions : list str) :
  forall answers : list json,
    answer_questions' cfg questions answers =
    answers ++ List.map (answer_one' cfg) questions.
Proof.
  induction questions as [|query rest IH]; intros answers; cbn.
  - now rewrite app_nil_r.
  - rewrite IH, <- app_assoc. reflexivity.
Qed.

(** X26. The question loop gives one answer per question, in the order
    of the questions, and a failure stays with its question: when the
    parser raises, the answer is the error sentence with the message, and
    when the search raises or finds nothing, the answer is the sentence
    that no relevant information was found; the evaluator is not called
    then. *)
Theorem answer_questions_one_per_question (cfg : settings)
        (questions : list str) :
  length (answer_questions' cfg questions []) = length questions /\
  forall (i : nat) (query : str),
    questions !! i = Some query ->
    answer_questions' cfg questions [] !! i = Some (answer_one' cfg query) /\
    (forall e : exn,
        parse_query query = Raised e ->
        answer_one' cfg query =
        JStr (lit "Error processing query: " ++ str_of_exn e)) /\
    (forall parsed_query : gmap string (list str),
        parse_query query = Returned parsed_query ->
        (vector_store_search (search_query parsed_query) (TOP_K_RESULTS cfg)
         = Returned [] \/
         exists e : exn,
           vector_store_search (search_query parsed_query) (TOP_K_RESULTS cfg)
           = Raised e) ->
        answer_one' cfg query =
        JStr (lit "No relevant information found in the document for this query.")).
Proof.
  rewrite answer_questions_map. cbn [app]. split; [apply length_map|].
  intros i query Hq. split; [|split].
  - change (List.map (answer_one' cfg) questions)
      with (answer_one' cfg <$> questions).
    now rewrite list_lookup_fmap, Hq.
  - intros e He. unfold answer_one, answer_or_raise. now rewrite He.
  - intros parsed_query Hp Hs.
    unfold answer_one, answer_or_raise, find_relevant_clauses.
    rewrite Hp. cbn [VectorStore.bind].
    destruct Hs as [->|[e ->]]; reflexivity.
Qed.

End Questions.

End EndpointsFacts.
